(** * Tensalis Python SDK: a model of [tensalis/client.py]

    The development follows the source file top to bottom: JSON values and
    dictionaries, the exception hierarchy of [tensalis/exceptions.py], the
    [VerificationResult] wrapper, the retrying [_request] method, [verify],
    and the [verify_stream] generator, modelled as a resumable machine with
    one state per suspension point.

    Python [str] values are modelled as Rocq strings whose characters are
    code points below 256; Python [int] values as [Z]. *)

From Stdlib Require Import ZArith Ascii String List Lia.
From stdpp Require Import base option list gmap strings pretty.

Local Open Scope string_scope.
Local Open Scope list_scope.
Local Open Scope Z_scope.

(** ** JSON values and dictionaries *)

(** What [response.json()] can hold and what [json=payload] can carry.
    A float is kept as a decimal literal [mantissa * 10 ^ exponent]. *)
#[local] Set Warnings "-register-all".
Inductive json : Type :=
| JNull
| JBool (b : bool)
| JInt (n : Z)
| JFloat (mantissa exponent : Z)
| JStr (s : string)
| JList (items : list json)
| JObj (fields : list (string * json)).
#[local] Set Warnings "register-all".

(** A Python [Dict[str, Any]]. *)
Abbreviation dict := (gmap string json).

(** [d.get(key, default)] *)
Definition dict_get (d : dict) (key : string) (default : json) : json :=
  match d !! key with
  | Some v => v
  | None => default
  end.

(** [d.get(key)]: the default is [None], a present key may map to null. *)
Definition dict_get_opt (d : dict) (key : string) : json :=
  dict_get d key JNull.

(** [v == "literal"] for a JSON value [v]: only a string can be equal to a
    string. *)
Definition json_eq_str (v : json) (lit : string) : bool :=
  match v with
  | JStr s => String.eqb s lit
  | _ => false
  end.

(** ** [class VerificationResult] *)

Record VerificationResult : Type := mkVerificationResult { _data : dict }.

Definition status (r : VerificationResult) : json :=
  dict_get (_data r) "status" (JStr "VERIFIED").

Definition severity (r : VerificationResult) : json := dict_get_opt (_data r) "severity".
Definition reason (r : VerificationResult) : json := dict_get_opt (_data r) "reason".
Definition confidence (r : VerificationResult) : json := dict_get_opt (_data r) "confidence".
Definition layer (r : VerificationResult) : json := dict_get_opt (_data r) "layer".
Definition latency_ms (r : VerificationResult) : json := dict_get_opt (_data r) "latency_ms".

Definition is_blocked (r : VerificationResult) : bool := json_eq_str (status r) "BLOCKED".
Definition is_verified (r : VerificationResult) : bool := json_eq_str (status r) "VERIFIED".

(** [to_dict] returns a copy; dictionaries are values here. *)
Definition to_dict (r : VerificationResult) : dict := _data r.

(** ** The exception classes of [tensalis/exceptions.py]

    One constructor per class, with the attributes its [__init__] stores.
    [ValueError] is the built-in that [int()] and [time.sleep] raise. *)
Inductive exn : Type :=
| TensalisError (message : string)
| TensalisAPIError (message : json) (status_code : Z) (response : dict)
| TensalisAuthenticationError (message : json) (response : dict)
| TensalisRateLimitError (message : json) (retry_after : Z) (response : dict)
| TensalisTimeoutError (message : string)
| TensalisValidationError (message : string) (field : option string) (details : dict)
| TensalisConnectionError (message : string)
| ValueError (message : string).

(** [isinstance(e, TensalisRateLimitError)]; the class has no subclass. *)
Definition is_rate_limit_error (e : exn) : bool :=
  match e with
  | TensalisRateLimitError _ _ _ => true
  | _ => false
  end.

(** [isinstance(e, TensalisValidationError)] *)
Definition is_validation_error (e : exn) : bool :=
  match e with
  | TensalisValidationError _ _ _ => true
  | _ => false
  end.

(** ** The outside world

    What the program does to its environment is recorded as a log of
    events; the environment answers a request as a function of the whole
    log up to and including that request, which covers any deterministic
    server or stub.  The chunk source handed to [verify_stream] is an
    iterator that lives outside the generator: the world holds the elements
    it has not yielded yet.  The source is a finite sequence of strings and
    pulling from it has no other effect. *)

Inductive event : Type :=
| EvRequest (method url : string) (payload : option dict) (timeout : Z)
    (* [self._session.request(method=, url=, json=, timeout=)] *)
| EvSleep (seconds : Z).
    (* [time.sleep(seconds)] *)

(** The [Retry-After] header, by what [int(headers.get("Retry-After", 1))]
    makes of it. *)
Inductive retry_after_header : Type :=
| RetryAfterAbsent
| RetryAfterInt (n : Z)
| RetryAfterInvalid (text : string).

(** A [requests.Response], by what [_request] asks of it: [status_code],
    the [Retry-After] header, whether [content] is non-empty, and what
    [json()] does: return the decoded value, or raise the [requests]
    decoding error (a [RequestException]) whose text is kept.  The decoded
    value is a JSON object, as the annotations of [_request] and of
    [VerificationResult] declare ([Dict[str, Any]]).  A body that decodes
    to an array, a string, a number, a boolean or [null] is outside this
    type: on such a body [error_data.get] raises [AttributeError], and a
    successful answer hands a non-dictionary to the caller.  Every property
    that reads a body names it as a dictionary. *)
Record http_response : Type := mkResponse {
  resp_status_code : Z;
  resp_retry_after : retry_after_header;
  resp_content : bool;
  resp_json : string + dict
}.

(** What [self._session.request] does: return a response, raise
    [requests.Timeout], or raise another [requests.RequestException]
    (carrying [str(e)]). *)
Inductive outcome : Type :=
| Responded (r : http_response)
| Timeout
| RequestException (text : string).

Record world : Type := mkWorld {
  chunks : list string;
  log : list event
}.

Definition with_log (w : world) (l : list event) : world :=
  {| chunks := chunks w; log := l |}.

Definition with_chunks (w : world) (cs : list string) : world :=
  {| chunks := cs; log := log w |}.

(** ** Computations that may raise *)

Definition io (A : Type) : Type := world -> (exn + A) * world.

Definition io_ret {A} (a : A) : io A := fun w => (inr a, w).
Definition io_raise {A} (e : exn) : io A := fun w => (inl e, w).
Definition io_bind {A B} (m : io A) (k : A -> io B) : io B :=
  fun w => match m w with
           | (inl e, w') => (inl e, w')
           | (inr a, w') => k a w'
           end.

Notation "'let!' x ':=' m 'in' k" := (io_bind m (fun x => k))
  (at level 10, x name, m at level 100, k at level 200).

(** The longest sleep, in whole seconds, that [time.sleep] accepts: it
    converts its argument to a signed 64-bit count of nanoseconds and
    raises [OverflowError] when the count does not fit, before it looks at
    the sign. *)
Definition MAX_SLEEP : Z := 9223372036.

(** [time.sleep(seconds)] for a length between [- MAX_SLEEP] and
    [MAX_SLEEP]: a negative length is rejected.  For a length outside that
    range the real function raises [OverflowError], which this definition
    does not reproduce: the backoff sleeps [2 ^ attempt] stay inside the
    range up to attempt 33, and every property about a length chosen by the
    server bounds it. *)
Definition sleep (seconds : Z) : io unit :=
  fun w =>
    if seconds <? 0 then (inl (ValueError "sleep length must be non-negative"), w)
    else (inr tt, with_log w (log w ++ [EvSleep seconds])).

(** ** [class TensalisClient] *)

Record TensalisClient : Type := mkClient {
  api_key : string;
  endpoint : string;
  timeout : Z;
  retries : Z;
  mode : string
}.

(** [Union[str, List[str]]] *)
Inductive context_arg : Type :=
| CtxStr (s : string)
| CtxList (l : list string).

(** [if isinstance(context, str): context = [context]] *)
Definition normalize_context (context : context_arg) : list string :=
  match context with
  | CtxStr s => [s]
  | CtxList l => l
  end.

(** [str.isspace] on one character, for code points below 256. *)
Definition py_isspace (c : ascii) : bool :=
  let n := Z.of_N (N_of_ascii c) in
  ((9 <=? n) && (n <=? 13)) || ((28 <=? n) && (n <=? 32)) || (n =? 133) || (n =? 160).

(** [s.split()]: the maximal runs of non-whitespace characters.  [cur] is
    the run being read. *)
Fixpoint split_from (cur : string) (s : string) : list string :=
  match s with
  | EmptyString => if String.eqb cur "" then [] else [cur]
  | String c rest =>
      if py_isspace c then
        if String.eqb cur "" then split_from "" rest
        else cur :: split_from "" rest
      else split_from (cur +:+ String c "") rest
  end.

Definition split (s : string) : list string := split_from "" s.

(** [len(chunk.split())] *)
Definition token_len (chunk : string) : Z := Z.of_nat (length (split chunk)).

(** The units [verify_stream] yields: a dictionary with exactly the keys
    ["text"], ["status"] and ["result"]. *)
Record emitted : Type := mkEmitted {
  text : string;
  unit_status : json;
  result : option dict
}.

(** ** Vocabulary of the properties *)

Definition is_request (e : event) : bool :=
  match e with
  | EvRequest _ _ _ _ => true
  | EvSleep _ => false
  end.

(** The requests of a log, in order. *)
Definition requests_of (l : list event) : list event := List.filter is_request l.

(** A unit whose status is the string PENDING. *)
Definition is_pending (u : emitted) : bool := json_eq_str (unit_status u) "PENDING".

(** A terminal unit: one that carries a verdict dictionary. *)
Definition is_terminal (u : emitted) : bool :=
  match result u with
  | Some _ => true
  | None => false
  end.

(** The concatenation of a list of chunks. *)
Definition joined (cs : list string) : string := foldr String.app "" cs.

(** [sum(len(c.split()) for c in cs)] *)
Definition total_tokens (cs : list string) : Z := foldr (fun c n => token_len c + n) 0 cs.

(** [w'] is [w] with [more] appended to its log; the chunk source is the
    same. *)
Definition logged (w : world) (more : list event) (w' : world) : Prop :=
  w' = with_log w (log w ++ more).

(** The exception classes that [client.py] constructs or lets through. *)
Definition raised_in_client (e : exn) : bool :=
  match e with
  | TensalisError _ | TensalisAPIError _ _ _ | TensalisTimeoutError _ | ValueError _ => true
  | _ => false
  end.

(** An answer with status 429 whose [Retry-After] header is absent or an
    integer that [time.sleep] accepts: not negative and at most
    [MAX_SLEEP]. *)
Definition rate_limited (o : outcome) : Prop :=
  exists r, o = Responded r /\ resp_status_code r = 429 /\
    (resp_retry_after r = RetryAfterAbsent \/
     exists n, resp_retry_after r = RetryAfterInt n /\ 0 <= n <= MAX_SLEEP).

Definition single_token (chunk : string) : Prop := token_len chunk = 1.

Section Client.

(** The environment: what the HTTP session answers to the request that
    ends the given log. *)
Variable server : list event -> outcome.

(** [self] *)
Variable self : TensalisClient.

(** [self._session.request(method=method, url=url, json=payload,
    timeout=self.timeout)] *)
Definition session_request (method url : string) (payload : option dict)
  : world -> outcome * world :=
  fun w =>
    let l := log w ++ [EvRequest method url payload (timeout self)] in
    (server l, with_log w l).

(** The tail of one loop iteration that did not leave the [try] block by
    [continue], [return] or an uncaught exception: the exponential
    backoff, then the next iteration. *)
Definition backoff (attempt : Z) : io unit :=
  if attempt <? retries self - 1 then sleep (2 ^ attempt) else io_ret tt.

(** [for attempt in range(self.retries): ...] followed by the final
    [raise]; [todo] counts the iterations left. *)
Fixpoint request_loop (method url : string) (payload : option dict)
    (todo : nat) (attempt : Z) (last_error : option exn) : io dict :=
  match todo with
  | O =>
      io_raise (match last_error with
                | Some e => e
                | None => TensalisError "Request failed after retries"
                end)
  | S todo' =>
      let next := request_loop method url payload todo' (attempt + 1) in
      let caught (e : exn) : io dict :=
        let! _ := backoff attempt in next (Some e) in
      let request_exception (e_text : string) : io dict :=
        caught (TensalisError ("Request failed: " +:+ e_text)) in
      fun w =>
        match session_request method url payload w with
        | (Responded response, w1) =>
            if resp_status_code response =? 429 then
              match resp_retry_after response with
              | RetryAfterInvalid t =>
                  (inl (ValueError ("invalid literal for int() with base 10: '"
                                    +:+ t +:+ "'")), w1)
              | header =>
                  let retry_after :=
                    match header with RetryAfterInt n => n | _ => 1 end in
                  (let! _ := sleep retry_after in next last_error) w1
              end
            else if resp_status_code response >=? 400 then
              if resp_content response then
                match resp_json response with
                | inr error_data =>
                    (inl (TensalisAPIError
                            (dict_get error_data "error" (JStr "Unknown error"))
                            (resp_status_code response) error_data), w1)
                | inl e_text => request_exception e_text w1
                end
              else
                (inl (TensalisAPIError (JStr "Unknown error")
                        (resp_status_code response) ∅), w1)
            else
              match resp_json response with
              | inr data => (inr data, w1)
              | inl e_text => request_exception e_text w1
              end
        | (Timeout, w1) =>
            caught (TensalisTimeoutError
                      ("Request timed out after " +:+ pretty (timeout self) +:+ "s")) w1
        | (RequestException e_text, w1) => request_exception e_text w1
        end
  end.

Definition _request (method path : string) (payload : option dict) : io dict :=
  let url := endpoint self +:+ path in
  request_loop method url payload (Z.to_nat (retries self)) 0 None.

(** The dictionary [verify] builds before the optional metadata. *)
Definition verify_payload (response : string) (context : list string) : dict :=
  <["reference_facts" := JList (JStr <$> context)]>
    (<["response" := JStr response]> ∅).

(** [def verify(self, response, context, metadata=None)]; [if metadata:]
    is false for [None] and for the empty dictionary. *)
Definition verify (response : string) (context : context_arg)
    (metadata : option (list (string * json))) : io VerificationResult :=
  let context := normalize_context context in
  let payload := verify_payload response context in
  let payload :=
    match metadata with
    | Some (kv :: kvs) => <["metadata" := JObj (kv :: kvs)]> payload
    | _ => payload
    end in
  let! data := _request "POST" "/verify" (Some payload) in
  io_ret (mkVerificationResult data).

(** *** [verify_stream]

    Calling [verify_stream] runs none of its body: it returns a generator
    object.  [response_stream] is the iterator held by the world
    ([chunks]); the generator pulls from it and never copies it. *)

(** The local variables that are live across a [yield]. *)
Record locals : Type := mkLocals {
  context : list string;
  check_interval : Z;
  accumulated : string;
  token_count : Z
}.

(** The generator object: not started, suspended at the [yield] of the
    checked branch (with [result] still live), suspended at the [yield]
    of the [else] branch, or finished. *)
Inductive generator : Type :=
| Created (context : context_arg) (check_interval : Z)
| AtYieldChecked (l : locals) (result : VerificationResult)
| AtYieldPending (l : locals)
| Finished.

(** What one [next(gen)] gives its caller. *)
Inductive signal : Type :=
| Yield (u : emitted)
| StopIteration
| Raise (e : exn).

Definition verify_stream (context : context_arg) (check_interval : Z) : generator :=
  Created context check_interval.

(** [accumulated += chunk; token_count += len(chunk.split())] *)
Definition consume_chunk (l : locals) (chunk : string) : locals :=
  {| context := context l; check_interval := check_interval l;
     accumulated := accumulated l +:+ chunk;
     token_count := token_count l + token_len chunk |}.

(** The unit of the checked branch. *)
Definition checked_unit (chunk : string) (result : VerificationResult) : emitted :=
  {| text := chunk;
     unit_status := status result;
     result := if is_blocked result then Some (to_dict result) else None |}.

(** The unit of the [else] branch. *)
Definition pending_unit (chunk : string) : emitted :=
  {| text := chunk; unit_status := JStr "PENDING"; result := None |}.

(** From the head of [for chunk in response_stream:] to the next [yield],
    [return] or exception. *)
Definition for_loop (l : locals) : world -> signal * generator * world :=
  fun w =>
    match chunks w with
    | [] => (StopIteration, Finished, w)
    | chunk :: rest =>
        let w := with_chunks w rest in
        let l := consume_chunk l chunk in
        if token_count l >=? check_interval l then
          match verify (accumulated l) (CtxList (context l)) None w with
          | (inl e, w') => (Raise e, Finished, w')
          | (inr result, w') => (Yield (checked_unit chunk result), AtYieldChecked l result, w')
          end
        else
          (Yield (pending_unit chunk), AtYieldPending l, w)
    end.

(** The local variables with which a resumed generator reaches the head
    of the [for] loop, if it does.  A generator that is not started runs
    the prologue (normalise [context], [accumulated = ""],
    [token_count = 0]); one suspended in the checked branch runs
    [if result.is_blocked: return] and then [token_count = 0]; one
    suspended in the [else] branch goes straight to the loop head. *)
Definition resume_locals (g : generator) : option locals :=
  match g with
  | Created context check_interval =>
      Some {| context := normalize_context context;
              check_interval := check_interval;
              accumulated := ""; token_count := 0 |}
  | AtYieldChecked l result =>
      if is_blocked result then None
      else Some {| context := context l; check_interval := check_interval l;
                   accumulated := accumulated l; token_count := 0 |}
  | AtYieldPending l => Some l
  | Finished => None
  end.

(** [next(gen)]: run the body from where it is suspended. *)
Definition next (g : generator) : world -> signal * generator * world :=
  match resume_locals g with
  | Some l => for_loop l
  | None => fun w => (StopIteration, Finished, w)
  end.

(** [n] successive calls of [next(gen)], whatever they give. *)
Fixpoint advance (n : nat) (g : generator) (w : world)
  : list signal * generator * world :=
  match n with
  | O => ([], g, w)
  | S n' =>
      let '(s, g1, w1) := next g w in
      let '(ss, g2, w2) := advance n' g1 w1 in
      (s :: ss, g2, w2)
  end.

(** How a full consumption of the generator ends. *)
Inductive ending : Type :=
| Exhausted
| Raised (e : exn).

(** [list(gen)], or a [for] loop over [gen] that never breaks: call
    [next] until it stops or raises.  [fuel] bounds the number of calls. *)
Fixpoint collect (fuel : nat) (g : generator) (w : world)
  : option (list emitted * ending * world) :=
  match fuel with
  | O => None
  | S fuel' =>
      match next g w with
      | (Yield u, g', w') =>
          match collect fuel' g' w' with
          | Some (us, e, w'') => Some (u :: us, e, w'')
          | None => None
          end
      | (StopIteration, _, w') => Some ([], Exhausted, w')
      | (Raise e, _, w') => Some ([], Raised e, w')
      end
  end.

(** The four ways one pass from the loop head can go. *)
Inductive loop_step (l : locals) (w : world) : signal * generator * world -> Prop :=
| step_exhausted :
    chunks w = [] ->
    loop_step l w (StopIteration, Finished, w)
| step_pending chunk rest :
    chunks w = chunk :: rest ->
    token_count l + token_len chunk < check_interval l ->
    loop_step l w (Yield (pending_unit chunk),
                   AtYieldPending (consume_chunk l chunk), with_chunks w rest)
| step_raised chunk rest e w' :
    chunks w = chunk :: rest ->
    check_interval l <= token_count l + token_len chunk ->
    verify (accumulated l +:+ chunk) (CtxList (context l)) None (with_chunks w rest)
      = (inl e, w') ->
    loop_step l w (Raise e, Finished, w')
| step_checked chunk rest r w' :
    chunks w = chunk :: rest ->
    check_interval l <= token_count l + token_len chunk ->
    verify (accumulated l +:+ chunk) (CtxList (context l)) None (with_chunks w rest)
      = (inr r, w') ->
    loop_step l w (Yield (checked_unit chunk r),
                   AtYieldChecked (consume_chunk l chunk) r, w').

(** After [n] calls on a stream over [src], a generator that can still be
    resumed has pulled exactly [n] chunks and accumulated their
    concatenation. *)
Definition in_step (src : list string) (ctx : context_arg) (n : nat)
    (g : generator) (w : world) : Prop :=
  forall l, resume_locals g = Some l ->
    context l = normalize_context ctx /\
    accumulated l = joined (take n src) /\
    chunks w = drop n src.

(** A verifier that answers every call with a verdict of status [v]. *)
Definition verifier_always (v : string) : Prop :=
  forall text c w, exists r w',
    verify text c None w = (inr r, w') /\ status r = JStr v.

End Client.

(** ** Stubs used in the scenarios *)

Definition ok_response (d : dict) : http_response :=
  {| resp_status_code := 200; resp_retry_after := RetryAfterAbsent;
     resp_content := true; resp_json := inr d |}.

(** A server that answers every request with status VERIFIED. *)
Definition always_verified : list event -> outcome :=
  fun _ => Responded (ok_response {["status" := JStr "VERIFIED"]}).

Definition blocked_payload : dict :=
  <["reason" := JStr "Contradiction detected"]>
    (<["severity" := JStr "HIGH"]> {["status" := JStr "BLOCKED"]}).

(** A server that answers every request with a BLOCKED verdict. *)
Definition always_blocked : list event -> outcome :=
  fun _ => Responded (ok_response blocked_payload).

(** A server that answers every request with 429 and [Retry-After: 2]. *)
Definition always_429 : list event -> outcome :=
  fun _ => Responded {| resp_status_code := 429; resp_retry_after := RetryAfterInt 2;
                        resp_content := false; resp_json := inl "Expecting value" |}.

Definition test_client : TensalisClient :=
  {| api_key := "test-key"; endpoint := "https://api.tensalis.com/v1";
     timeout := 30; retries := 3; mode := "balanced" |}.

Definition world0 (src : list string) : world := {| chunks := src; log := [] |}.

Definition blocked_context : context_arg := CtxList ["Returns within 30 days"].
Definition blocked_source : list string := ["Returns within 90 days"; " of purchase"].

Definition blocked_locals : locals :=
  {| context := ["Returns within 30 days"]; check_interval := 3;
     accumulated := "Returns within 90 days"; token_count := 4 |}.

Definition blocked_world : world :=
  {| chunks := [" of purchase"];
     log := [EvRequest "POST" "https://api.tensalis.com/v1/verify"
               (Some (verify_payload "Returns within 90 days" ["Returns within 30 days"]))
               30] |}.

Definition blocked_unit : emitted :=
  {| text := "Returns within 90 days"; unit_status := JStr "BLOCKED";
     result := Some blocked_payload |}.

Definition cadence_source : list string := ["a "; "b "; "c "].

(** ** The rest of [client.py] and two of its callers *)

(** [s.rstrip("/")] *)
Fixpoint rstrip_slash (s : string) : string :=
  match s with
  | EmptyString => EmptyString
  | String c rest =>
      match rstrip_slash rest with
      | EmptyString => if Ascii.eqb c "/" then EmptyString else String c EmptyString
      | kept => String c kept
      end
  end.

Definition DEFAULT_ENDPOINT : string := "https://api.tensalis.com/v1".
Definition VERSION : string := "0.1.0".

(** [TensalisClient.__init__]: an empty key is refused, the endpoint loses
    its trailing slashes, the other arguments are stored.  Creating the
    session sends nothing. *)
Definition init (api_key endpoint : string) (timeout retries : Z) (mode : string)
  : exn + TensalisClient :=
  if String.eqb api_key "" then inl (TensalisError "API key is required")
  else inr {| api_key := api_key; endpoint := rstrip_slash endpoint;
              timeout := timeout; retries := retries; mode := mode |}.

(** [self._session.headers.update({...})]: the headers the constructor
    puts on the session. *)
Definition session_headers (self : TensalisClient) : gmap string string :=
  <["Authorization" := "Bearer " +:+ api_key self]>
    (<["Content-Type" := "application/json"]>
       (<["User-Agent" := "tensalis-python/" +:+ VERSION]>
          {["X-Tensalis-Mode" := mode self]})).

(** The Python dictionary that a JSON object stands for; the field list of
    an object decoded by [response.json()] has distinct keys. *)
Definition object_dict (fields : list (string * json)) : dict := list_to_map fields.

(** [[VerificationResult(r) for r in data.get("results", [])]], for a
    [results] value of the wire format: a JSON array of objects.  Other
    shapes are outside the annotations and are not modelled ([None]). *)
Definition batch_results (data : dict) : option (list VerificationResult) :=
  match dict_get data "results" (JList []) with
  | JList rs =>
      mapM (fun r => match r with
                     | JObj fields => Some (mkVerificationResult (object_dict fields))
                     | _ => None
                     end) rs
  | _ => None
  end.

(** The log of [todo] failed attempts from attempt number [attempt] on:
    each attempt is a request, followed by its backoff sleep unless it is
    the last attempt of the budget. *)
Fixpoint failure_log (req : event) (retries : Z) (todo : nat) (attempt : Z) : list event :=
  match todo with
  | O => []
  | S todo' =>
      req :: (if attempt <? retries - 1 then [EvSleep (2 ^ attempt)] else [])
          ++ failure_log req retries todo' (attempt + 1)
  end.

(** The shape of what a retry loop with [n] iterations to go adds to the
    log: at most [n] attempts, each the request [req], each followed by at
    most one sleep. *)
Inductive attempts (req : event) : nat -> list event -> Prop :=
| attempts_done n : attempts req n []
| attempts_request n rest :
    attempts req n rest -> attempts req (S n) (req :: rest)
| attempts_sleep n seconds rest :
    attempts req n rest -> attempts req (S n) (req :: EvSleep seconds :: rest).

(** The errors the loop of [_request] ends in, on the answers and the
    sleep lengths that [http_response] and [sleep] cover: the base error,
    the timeout error, the built-in [ValueError], or an API error whose
    status code is at least 400 and is not 429. *)
Definition request_error (e : exn) : Prop :=
  match e with
  | TensalisError _ | TensalisTimeoutError _ | ValueError _ => True
  | TensalisAPIError _ status_code _ => 400 <= status_code /\ status_code <> 429
  | _ => False
  end.

(** The classes of [exceptions.py] that [client.py] neither imports nor
    constructs. *)
Definition unused_class (e : exn) : bool :=
  match e with
  | TensalisAuthenticationError _ _ | TensalisRateLimitError _ _ _
  | TensalisValidationError _ _ _ | TensalisConnectionError _ => true
  | _ => false
  end.

(** What holds of every exception that leaves [_request]: it is of none of
    the unused classes, and if it is a [TensalisAPIError] its status code is
    at least 400 and is not 429. *)
Definition expected_error (e : exn) : Prop :=
  unused_class e = false /\
  forall message status_code response,
    e = TensalisAPIError message status_code response ->
    400 <= status_code /\ status_code <> 429.

(** [n] slashes. *)
Definition slashes (n : nat) : string := Nat.iter n (String "/") EmptyString.

(** The sleeps of a log, in order. *)
Definition sleeps_of (l : list event) : list Z :=
  omap (fun e => match e with EvSleep s => Some s | _ => None end) l.

(** The states of a stream whose interval is [k] that are never in the
    [else] branch. *)
Definition always_checking (k : Z) (g : generator) : Prop :=
  match g with
  | Created _ k' => k' = k
  | AtYieldChecked l _ => check_interval l = k
  | AtYieldPending _ => False
  | Finished => True
  end.

(** [examples/streaming_verification.py]: the chunks of
    [for word in response.split(): yield word + " "]. *)
Definition word_stream (response : string) : list string :=
  (fun word => word +:+ " ") <$> split response.

Definition mock_response : string :=
  "The refund policy allows returns within 90 days. Original receipt is required. Items must be unused.".

Definition mock_streaming_llm (prompt : string) : list string :=
  word_stream mock_response.

Definition newline : string := String (ascii_of_nat 10) EmptyString.

Definition truncation_notice : string :=
  newline +:+ newline +:+ "[Response truncated: verification failed]".

(** A string without whitespace. *)
Fixpoint spaceless (s : string) : bool :=
  match s with
  | EmptyString => true
  | String c rest => negb (py_isspace c) && spaceless rest
  end.

(** [if on_block: on_block(chunk["result"])] on what has been printed. *)
Definition after_block (on_block : option (option dict -> list string -> list string))
    (verdict : option dict) (stdout : list string) : list string :=
  match on_block with
  | Some callback => callback verdict stdout
  | None => stdout
  end.

(** What a run of the example's loop can end in, for a stream with context
    [context] over a source [src], the texts [acc] kept so far and the
    output [out] printed so far.  Either the source was exhausted; or the
    check made right after pulling the chunk at some position [n], on all
    the text up to and including that chunk, returned a verdict [r] with
    status BLOCKED, and [on_block] was called with the dictionary of [r];
    or that check raised. *)
Definition stream_outcome (server : list event -> outcome) (self : TensalisClient)
    (on_block : option (option dict -> list string -> list string))
    (context : list string) (src acc out : list string)
    (res : exn + string) (w' : world) (out' : list string) : Prop :=
  match res with
  | inr s =>
      (s = joined (acc ++ src) /\ out' = out ++ src ++ [newline] /\ chunks w' = []) \/
      (exists n blocked r wv,
         src !! n = Some blocked /\
         chunks wv = drop (S n) src /\
         verify server self (joined (acc ++ take (S n) src)) (CtxList context) None wv
           = (inr r, w') /\
         is_blocked r = true /\
         s = joined (acc ++ take n src) +:+ truncation_notice /\
         out' = after_block on_block (Some (_data r)) (out ++ take n src) /\
         chunks w' = drop (S n) src)
  | inl e =>
      exists n lost wv,
        src !! n = Some lost /\
        chunks wv = drop (S n) src /\
        verify server self (joined (acc ++ take (S n) src)) (CtxList context) None wv
          = (inl e, w') /\
        out' = out ++ take n src /\ chunks w' = drop (S n) src
  end.

Section ClientRest.

Variable server : list event -> outcome.
Variable self : TensalisClient.

(** [def verify_batch(self, items)] *)
Definition verify_batch (items : list (list (string * json)))
  : io (option (list VerificationResult)) :=
  let payload : dict := {["items" := JList (JObj <$> items)]} in
  let! data := _request server self "POST" "/verify/batch" (Some payload) in
  io_ret (batch_results data).

(** [def health(self)] and [def usage(self)] *)
Definition health : io dict := _request server self "GET" "/health" None.
Definition usage : io dict := _request server self "GET" "/usage" None.

(** What a failed attempt leaves in [last_error]. *)
Definition failure_error (o : outcome) : option exn :=
  match o with
  | Timeout =>
      Some (TensalisTimeoutError
              ("Request timed out after " +:+ pretty (timeout self) +:+ "s"))
  | RequestException e_text => Some (TensalisError ("Request failed: " +:+ e_text))
  | Responded _ => None
  end.

(** The loop of [stream_with_verification] in
    [examples/streaming_verification.py].  [stdout] is what has been
    printed; [on_block] is the optional callback, which only prints.
    [fuel] bounds the number of units taken from the generator. *)
Fixpoint stream_consume
    (on_block : option (option dict -> list string -> list string))
    (fuel : nat) (g : generator) (accumulated : list string)
    (w : world) (stdout : list string)
  : option ((exn + string) * world * list string) :=
  match fuel with
  | O => None
  | S fuel' =>
      match next server self g w with
      | (Yield chunk, g', w') =>
          if json_eq_str (unit_status chunk) "BLOCKED" then
            let stdout :=
              match on_block with
              | Some callback => callback (result chunk) stdout
              | None => stdout
              end in
            Some (inr (joined accumulated +:+ truncation_notice), w', stdout)
          else
            stream_consume on_block fuel' g' (accumulated ++ [text chunk]) w'
              (stdout ++ [text chunk])
      | (StopIteration, _, w') => Some (inr (joined accumulated), w', stdout ++ [newline])
      | (Raise e, _, w') => Some (inl e, w', stdout)
      end
  end.

(** [def stream_with_verification(prompt, context, llm_stream_fn, client,
    on_block=None)]: [llm_stream_fn(prompt)] becomes the chunk source. *)
Definition stream_with_verification (prompt : string) (context : list string)
    (llm_stream_fn : string -> list string)
    (on_block : option (option dict -> list string -> list string))
    (w : world) (stdout : list string)
  : option ((exn + string) * world * list string) :=
  let w := with_chunks w (llm_stream_fn prompt) in
  stream_consume on_block (S (length (chunks w)))
    (verify_stream (CtxList context) 25) [] w stdout.

End ClientRest.

(** ** More stubs *)

(** A server that answers every request with 401 and an error body. *)
Definition always_401 : list event -> outcome :=
  fun _ => Responded {| resp_status_code := 401; resp_retry_after := RetryAfterAbsent;
                        resp_content := true;
                        resp_json := inr {["error" := JStr "Invalid API key"]} |}.

(** A server that never answers in time. *)
Definition always_timeout : list event -> outcome := fun _ => Timeout.

(** A server whose 429 carries a [Retry-After] that is no integer. *)
Definition bad_retry_after : list event -> outcome :=
  fun _ => Responded {| resp_status_code := 429;
                        resp_retry_after := RetryAfterInvalid "soon";
                        resp_content := false; resp_json := inl "Expecting value" |}.

(** A server that times out on the first request and rate limits the
    later ones. *)
Definition timeout_then_429 : list event -> outcome :=
  fun l => if (length l <=? 1)%nat then Timeout else always_429 l.

(** A server that rate limits the first request and then verifies. *)
Definition limited_once : list event -> outcome :=
  fun l => if (length l <=? 1)%nat then always_429 l else always_verified l.

(** A server that answers a batch with two results. *)
Definition batch_objects : list (list (string * json)) :=
  [[("status", JStr "VERIFIED")]; [("status", JStr "BLOCKED"); ("severity", JStr "HIGH")]].

Definition batch_server : list event -> outcome :=
  fun _ => Responded (ok_response {["results" := JList (JObj <$> batch_objects)]}).

Definition no_retry_client : TensalisClient :=
  {| api_key := "test-key"; endpoint := "https://api.tensalis.com/v1";
     timeout := 30; retries := 0; mode := "balanced" |}.

(** The end of the stream over [cadence_source] with one check. *)
Definition cadence_world : world :=
  {| chunks := [];
     log := [EvRequest "POST" "https://api.tensalis.com/v1/verify"
               (Some (verify_payload "a b " ["facts"])) 30] |}.

Definition cadence_units : list emitted :=
  [pending_unit "a ";
   {| text := "b "; unit_status := JStr "VERIFIED"; result := None |};
   pending_unit "c "].

(** The world after the one request that [always_401] refuses. *)
Definition refused_world : world :=
  {| chunks := [];
     log := [EvRequest "POST" "https://api.tensalis.com/v1/verify"
               (Some (verify_payload "a " ["facts"])) 30] |}.

Definition refused_error : exn :=
  TensalisAPIError (JStr "Invalid API key") 401 {["error" := JStr "Invalid API key"]}.

(** An [on_block] callback that prints the reason of the verdict it is
    given. *)
Definition print_reason (verdict : option dict) (stdout : list string) : list string :=
  match verdict with
  | Some d =>
      match d !! "reason" with
      | Some (JStr text) => stdout ++ [text]
      | _ => stdout
      end
  | None => stdout
  end.

(** A source of 26 one-word chunks: the example's interval of 25 is
    reached at the 25th. *)
Definition long_source : list string := repeat "tok " 25 ++ ["late "].

(** * Properties *)

(** ** The verdict wrapper *)

Lemma json_eq_str_true (v : json) (lit : string) :
  json_eq_str v lit = true <-> v = JStr lit.
Proof.
  destruct v; simpl; try (split; [discriminate | intros H; discriminate H]).
  rewrite String.eqb_eq. split; [intros -> | intros [= ->]]; reflexivity.
Qed.

Lemma status_absent (r : VerificationResult) :
  _data r !! "status" = None -> status r = JStr "VERIFIED".
Proof. unfold status, dict_get. intros ->. reflexivity. Qed.

Lemma status_present (r : VerificationResult) (v : json) :
  _data r !! "status" = Some v -> status r = v.
Proof. unfold status, dict_get. intros ->. reflexivity. Qed.

(** C6, as the specification states it, fails from right to left: a payload
    whose status key is present and holds VERIFIED is verified as well. *)
Lemma verified_status_present_counterexample :
  let r := mkVerificationResult {["status" := JStr "VERIFIED"]} in
  ~ (_data r !! "status" = None <-> is_verified r = true).
Proof.
  simpl. intros [_ H].
  assert (Hv : is_verified (mkVerificationResult {["status" := JStr "VERIFIED"]}) = true)
    by (vm_compute; reflexivity).
  specialize (H Hv). vm_compute in H. discriminate H.
Qed.

(** C6 (amended): [is_blocked] holds exactly when the status is BLOCKED,
    [is_verified] exactly when it is VERIFIED; a payload without a status
    key has status VERIFIED and so is verified; and a payload is verified
    exactly when its status key is absent or holds the string VERIFIED. *)
Theorem verdict_predicates (r : VerificationResult) :
  (is_blocked r = true <-> status r = JStr "BLOCKED") /\
  (is_verified r = true <-> status r = JStr "VERIFIED") /\
  (_data r !! "status" = None -> status r = JStr "VERIFIED" /\ is_verified r = true) /\
  (is_verified r = true <->
     _data r !! "status" = None \/ _data r !! "status" = Some (JStr "VERIFIED")).
Proof.
  split; [apply json_eq_str_true |].
  split; [apply json_eq_str_true |].
  split.
  - intros H. split; [by apply status_absent |].
    apply json_eq_str_true. by apply status_absent.
  - unfold is_verified. rewrite json_eq_str_true.
    destruct (_data r !! "status") as [v|] eqn:E.
    + rewrite (status_present r v E). split.
      * intros ->. by right.
      * intros [H | [= ->]]; [discriminate H | reflexivity].
    + rewrite (status_absent r E). split; [by left | reflexivity].
Qed.

(** ** The transport: [_request] and [verify] *)

Lemma with_log_log (w : world) (l : list event) : log (with_log w l) = l.
Proof. reflexivity. Qed.

Lemma with_log_same (w : world) : with_log w (log w ++ []) = w.
Proof. destruct w. unfold with_log. simpl. by rewrite app_nil_r. Qed.

Lemma with_log_twice (w : world) (a b : list event) :
  with_log (with_log w (log w ++ a)) (log (with_log w (log w ++ a)) ++ b)
  = with_log w (log w ++ a ++ b).
Proof. unfold with_log. simpl. by rewrite app_assoc. Qed.

Lemma logged_refl (w : world) : logged w [] w.
Proof. unfold logged. by rewrite with_log_same. Qed.

Lemma logged_trans (w w1 w2 : world) (a b : list event) :
  logged w a w1 -> logged w1 b w2 -> logged w (a ++ b) w2.
Proof. unfold logged. intros -> ->. apply with_log_twice. Qed.

Lemma logged_chunks (w w' : world) (more : list event) :
  logged w more w' -> chunks w' = chunks w.
Proof. by intros ->. Qed.

Lemma sleep_logged (seconds : Z) (w : world) :
  exists more, logged w more (sleep seconds w).2 /\ Forall (fun e => is_request e = false) more.
Proof.
  unfold sleep. destruct (seconds <? 0); simpl.
  - exists []. split; [apply logged_refl | constructor].
  - exists [EvSleep seconds]. split; [reflexivity | by repeat constructor].
Qed.

Section Transport.

Context (server : list event -> outcome) (self : TensalisClient).

Lemma session_request_logged method url payload w :
  logged w [EvRequest method url payload (timeout self)]
    (session_request server self method url payload w).2.
Proof. reflexivity. Qed.

Lemma backoff_logged attempt w :
  exists more, logged w more (backoff self attempt w).2 /\
               Forall (fun e => is_request e = false) more.
Proof.
  unfold backoff. destruct (attempt <? retries self - 1).
  - apply sleep_logged.
  - exists []. split; [apply logged_refl | constructor].
Qed.

(** Every run of the retry loop only appends to the log; with at least
    one iteration to go the first thing appended is the request, and each
    request appended later is the same one. *)
Lemma request_loop_logged method url payload todo :
  forall attempt last_error w,
  exists more,
    logged w more (request_loop server self method url payload todo attempt last_error w).2 /\
    Forall (fun e => is_request e = true ->
                     e = EvRequest method url payload (timeout self)) more /\
    match todo with
    | O => more = []
    | S _ => exists rest, more = EvRequest method url payload (timeout self) :: rest
    end.
Proof.
  set (req := EvRequest method url payload (timeout self)).
  set (same := fun e : event => is_request e = true -> e = req).
  assert (Hquiet : forall m, Forall (fun e => is_request e = false) m -> Forall same m).
  { intros m Hm. eapply Forall_impl; [exact Hm |]. intros x Hx Hy. congruence. }
  induction todo as [|todo IH]; intros attempt last_error w.
  - exists []. split; [apply logged_refl | split; [constructor | reflexivity]].
  - assert (Hsleep_next : forall secs le w1, logged w [req] w1 ->
      exists rest,
        logged w (req :: rest)
          (io_bind (sleep secs)
             (fun _ => request_loop server self method url payload todo (attempt + 1) le) w1).2 /\
        Forall same rest).
    { intros secs le w1 H1. unfold io_bind.
      destruct (sleep_logged secs w1) as (m1 & Hm1 & Hf1).
      destruct (sleep secs w1) as [[e|[]] w2] eqn:Es; simpl in Hm1.
      - exists m1. split; [exact (logged_trans _ _ _ _ _ H1 Hm1) | by apply Hquiet].
      - destruct (IH (attempt + 1) le w2) as (m2 & Hm2 & Hf2 & _).
        exists (m1 ++ m2). split.
        + exact (logged_trans _ _ _ _ _ H1 (logged_trans _ _ _ _ _ Hm1 Hm2)).
        + apply Forall_app. split; [by apply Hquiet | exact Hf2]. }
    assert (Hcaught : forall le w1, logged w [req] w1 ->
      exists rest,
        logged w (req :: rest)
          (io_bind (backoff self attempt)
             (fun _ => request_loop server self method url payload todo (attempt + 1) le) w1).2 /\
        Forall same rest).
    { intros le w1 H1. unfold backoff.
      destruct (attempt <? retries self - 1); [by apply Hsleep_next |].
      unfold io_bind, io_ret.
      destruct (IH (attempt + 1) le w1) as (m2 & Hm2 & Hf2 & _).
      exists m2. split; [exact (logged_trans _ _ _ _ _ H1 Hm2) | exact Hf2]. }
    assert (Hstop : forall w1, logged w [req] w1 ->
      exists rest, logged w (req :: rest) w1 /\ Forall same rest).
    { intros w1 H1. exists []. split; [exact H1 | constructor]. }
    assert (Hwrap : forall w',
      (exists rest, logged w (req :: rest) w' /\ Forall same rest) ->
      exists more, logged w more w' /\ Forall same more /\
                   exists rest, more = req :: rest).
    { intros w' (rest & Hl & Hf). exists (req :: rest).
      split; [exact Hl |]. split; [| by exists rest].
      constructor; [by intros _ | exact Hf]. }
    pose proof (session_request_logged method url payload w) as H1.
    cbn [request_loop].
    destruct (session_request server self method url payload w) as [o w1].
    simpl in H1. apply Hwrap.
    destruct o as [response| |e_text]; [| by apply Hcaught | by apply Hcaught].
    destruct (resp_status_code response =? 429).
    { destruct (resp_retry_after response);
        [by apply Hsleep_next | by apply Hsleep_next | by apply Hstop]. }
    destruct (resp_status_code response >=? 400).
    { destruct (resp_content response); [| by apply Hstop].
      destruct (resp_json response); [by apply Hcaught | by apply Hstop]. }
    destruct (resp_json response); [by apply Hcaught | by apply Hstop].
Qed.

(** The retry loop raises nothing but what [client.py] constructs, the
    [ValueError] of [int()] or [time.sleep], or the error it was handed. *)
Lemma request_loop_raises method url payload todo :
  forall attempt last_error w e,
    (forall e0, last_error = Some e0 -> raised_in_client e0 = true) ->
    (request_loop server self method url payload todo attempt last_error w).1 = inl e ->
    raised_in_client e = true.
Proof.
  induction todo as [|todo IH]; intros attempt last_error w e Hlast.
  - simpl. destruct last_error as [e0|]; intros [= <-]; [by apply Hlast | reflexivity].
  - assert (Hsleep_next : forall secs le w1,
      (forall e0, le = Some e0 -> raised_in_client e0 = true) ->
      (io_bind (sleep secs)
         (fun _ => request_loop server self method url payload todo (attempt + 1) le) w1).1
        = inl e -> raised_in_client e = true).
    { intros secs le w1 Hle. unfold io_bind, sleep.
      destruct (secs <? 0); simpl; [by intros [= <-] | by apply IH]. }
    assert (Hcaught : forall e1 w1, raised_in_client e1 = true ->
      (io_bind (backoff self attempt)
         (fun _ => request_loop server self method url payload todo (attempt + 1) (Some e1)) w1).1
        = inl e -> raised_in_client e = true).
    { intros e1 w1 He1. unfold backoff.
      destruct (attempt <? retries self - 1).
      - apply Hsleep_next. by intros e0 [= <-].
      - unfold io_bind, io_ret. apply IH. by intros e0 [= <-]. }
    cbn [request_loop].
    destruct (session_request server self method url payload w) as [o w1].
    destruct o as [response| |e_text]; [| by apply Hcaught | by apply Hcaught].
    destruct (resp_status_code response =? 429).
    { destruct (resp_retry_after response);
        [by apply Hsleep_next | by apply Hsleep_next | by intros [= <-]]. }
    destruct (resp_status_code response >=? 400).
    { destruct (resp_content response); [| by intros [= <-]].
      destruct (resp_json response); [by apply Hcaught | by intros [= <-]]. }
    destruct (resp_json response); [by apply Hcaught | discriminate].
Qed.

(** [verify] and the log: it only appends, each request appended is the
    POST of its payload to [/verify], and with a positive retry budget
    that request is the first thing appended. *)
Lemma verify_logged response context metadata w :
  let payload :=
    match metadata with
    | Some (kv :: kvs) =>
        <["metadata" := JObj (kv :: kvs)]>
          (verify_payload response (normalize_context context))
    | _ => verify_payload response (normalize_context context)
    end in
  let req := EvRequest "POST" (endpoint self +:+ "/verify") (Some payload) (timeout self) in
  exists more,
    logged w more (verify server self response context metadata w).2 /\
    Forall (fun e => is_request e = true -> e = req) more /\
    (0 < retries self -> exists rest, more = req :: rest).
Proof.
  intros payload req. unfold verify, _request, io_bind. fold payload.
  destruct (request_loop_logged "POST" (endpoint self +:+ "/verify") (Some payload)
              (Z.to_nat (retries self)) 0 None w) as (more & Hl & Hf & Hfirst).
  exists more.
  destruct (request_loop server self "POST" (endpoint self +:+ "/verify") (Some payload)
              (Z.to_nat (retries self)) 0 None w) as [[e|data] w'];
    simpl in *; (split; [exact Hl |]); (split; [exact Hf |]); intros Hpos;
    (destruct (Z.to_nat (retries self)) eqn:En; [lia | exact Hfirst]).
Qed.

Lemma verify_raises response context metadata w e :
  (verify server self response context metadata w).1 = inl e ->
  raised_in_client e = true.
Proof.
  unfold verify, _request, io_bind.
  match goal with
  | |- context [request_loop ?s ?c ?m ?u ?p ?t ?a ?le ?w0] =>
      pose proof (request_loop_raises m u p t a le w0 e) as H;
      destruct (request_loop s c m u p t a le w0) as [[e'|data] w']
  end; simpl in *; [| discriminate].
  intros [= <-]. apply H; [discriminate | reflexivity].
Qed.

(** *** Rate limiting *)

Lemma request_loop_rate_limited method url payload todo :
  (forall l, rate_limited (server l)) ->
  forall attempt w,
  exists w',
    request_loop server self method url payload todo attempt None w
      = (inl (TensalisError "Request failed after retries"), w') /\
    length (requests_of (log w')) = (length (requests_of (log w)) + todo)%nat.
Proof.
  intros Hsrv. induction todo as [|todo IH]; intros attempt w.
  - exists w. split; [reflexivity | lia].
  - cbn [request_loop]. unfold session_request.
    destruct (Hsrv (log w ++ [EvRequest method url payload (timeout self)]))
      as (r & -> & Hcode & Hra).
    rewrite Hcode. simpl (429 =? 429).
    set (w1 := with_log w (log w ++ [EvRequest method url payload (timeout self)])).
    assert (Hw1 : length (requests_of (log w1)) = S (length (requests_of (log w)))).
    { unfold w1, requests_of. rewrite with_log_log, List.filter_app, length_app. simpl. lia. }
    assert (Hgo : forall secs, 0 <= secs ->
      exists w',
        io_bind (sleep secs)
          (fun _ => request_loop server self method url payload todo (attempt + 1) None) w1
          = (inl (TensalisError "Request failed after retries"), w') /\
        length (requests_of (log w')) = (length (requests_of (log w)) + S todo)%nat).
    { intros secs Hsecs. unfold io_bind, sleep.
      destruct (Z.ltb_spec secs 0) as [?|_]; [lia |].
      destruct (IH (attempt + 1) (with_log w1 (log w1 ++ [EvSleep secs]))) as (w' & -> & Hn).
      exists w'. split; [reflexivity |]. rewrite Hn.
      unfold requests_of at 1. rewrite with_log_log, List.filter_app, length_app.
      fold (requests_of (log w1)). rewrite Hw1. simpl. lia. }
    destruct Hra as [-> | (n & -> & Hn)]; apply Hgo; lia.
Qed.

(** C7: when every attempt is answered with 429, with a [Retry-After]
    that is absent or a length [time.sleep] accepts, [_request] sends
    [retries] requests and then raises the base [TensalisError] with the
    message of the final [raise], which is not a
    [TensalisRateLimitError]. *)
Theorem persistent_429_raises_base_error method path payload w :
  (forall l, rate_limited (server l)) ->
  exists w',
    _request server self method path payload w
      = (inl (TensalisError "Request failed after retries"), w') /\
    is_rate_limit_error (TensalisError "Request failed after retries") = false /\
    length (requests_of (log w'))
      = (length (requests_of (log w)) + Z.to_nat (retries self))%nat.
Proof.
  intros Hsrv. unfold _request.
  destruct (request_loop_rate_limited method (endpoint self +:+ path) payload
              (Z.to_nat (retries self)) Hsrv 0 w) as (w' & Hr & Hn).
  exists w'. by repeat split.
Qed.

(** A 429 followed by a successful answer is absorbed: the client sleeps
    for the [Retry-After] duration, sends the same request again and
    returns the decoded body. *)
Lemma rate_limit_absorbed method path payload w r1 r2 secs data :
  let req := EvRequest method (endpoint self +:+ path) payload (timeout self) in
  2 <= retries self ->
  0 <= secs <= MAX_SLEEP ->
  server (log w ++ [req]) = Responded r1 ->
  resp_status_code r1 = 429 ->
  resp_retry_after r1 = RetryAfterInt secs ->
  server (log w ++ [req; EvSleep secs; req]) = Responded r2 ->
  resp_status_code r2 = 200 ->
  resp_json r2 = inr data ->
  _request server self method path payload w
    = (inr data, with_log w (log w ++ [req; EvSleep secs; req])).
Proof.
  intros req Hretries Hsecs Hs1 Hc1 Hra Hs2 Hc2 Hj.
  unfold _request.
  destruct (Z.to_nat (retries self)) as [|[|todo]] eqn:En; [lia | lia |].
  cbn [request_loop]. unfold session_request at 1. fold req.
  rewrite Hs1, Hc1, Hra. simpl (429 =? 429).
  unfold io_bind at 1, sleep. destruct (Z.ltb_spec secs 0) as [?|_]; [lia |].
  unfold session_request. fold req. rewrite !with_log_log.
  replace ((log w ++ [req]) ++ [EvSleep secs]) with (log w ++ [req; EvSleep secs])
    by (by rewrite <- app_assoc).
  replace ((log w ++ [req; EvSleep secs]) ++ [req]) with (log w ++ [req; EvSleep secs; req])
    by (by rewrite <- app_assoc).
  rewrite Hs2, Hc2, Hj. reflexivity.
Qed.

(** *** No client-side validation *)

Lemma verify_payload_reference_facts response context :
  verify_payload response context !! "reference_facts" = Some (JList (JStr <$> context)).
Proof. unfold verify_payload. apply lookup_insert_eq. Qed.

Lemma verify_payload_response response context :
  verify_payload response context !! "response" = Some (JStr response).
Proof. unfold verify_payload. by rewrite lookup_insert_ne, lookup_insert_eq. Qed.

(** C8 (amended): [verify] validates nothing.  Whatever the response text
    and the context are, empty or not, it builds a payload with the text
    under ["response"] and the normalised context under
    ["reference_facts"]; with a positive retry budget the first thing it
    does is send the POST of that payload to [/verify]; any error it
    raises is the one [_request] raised for that payload; and no error it
    raises is a [TensalisValidationError]. *)
Theorem verify_sends_without_validation response context metadata w :
  (exists payload,
     payload !! "response" = Some (JStr response) /\
     payload !! "reference_facts"
       = Some (JList (JStr <$> normalize_context context)) /\
     (0 < retries self -> exists rest,
        log (verify server self response context metadata w).2
        = log w ++ EvRequest "POST" (endpoint self +:+ "/verify") (Some payload)
                     (timeout self) :: rest) /\
     (forall e, (verify server self response context metadata w).1 = inl e ->
                (_request server self "POST" "/verify" (Some payload) w).1 = inl e)) /\
  (forall e, (verify server self response context metadata w).1 = inl e ->
             is_validation_error e = false).
Proof.
  split.
  - pose proof (verify_logged response context metadata w) as Hlog.
    cbv zeta in Hlog. destruct Hlog as (more & Hl & _ & Hfirst).
    eexists. split; [| split; [| split]].
    3:{ intros Hpos. destruct (Hfirst Hpos) as (rest & ->). exists rest.
        rewrite Hl. apply with_log_log. }
    + destruct metadata as [[|kv kvs]|];
        rewrite ?lookup_insert_ne by discriminate;
        apply verify_payload_response.
    + destruct metadata as [[|kv kvs]|];
        rewrite ?lookup_insert_ne by discriminate;
        apply verify_payload_reference_facts.
    + intros e. unfold verify, io_bind.
      match goal with
      | |- context [_request ?sv ?c ?m ?pa ?pl ?w0] =>
          destruct (_request sv c m pa pl w0) as [[e'|data] w1]
      end; simpl; [by intros [= ->] | discriminate].
  - intros e He. apply verify_raises in He. by destruct e.
Qed.

End Transport.

(** ** The streaming generator *)

Lemma string_app_nil_r (s : string) : s +:+ "" = s.
Proof.
  induction s as [|c s IH]; [reflexivity |].
  change (String c (s +:+ "") = String c s). by f_equal.
Qed.

Lemma string_app_assoc (a b c : string) : (a +:+ b) +:+ c = a +:+ (b +:+ c).
Proof.
  induction a as [|x a IH]; [reflexivity |].
  change (String x ((a +:+ b) +:+ c) = String x (a +:+ (b +:+ c))). by f_equal.
Qed.

Lemma joined_snoc (cs : list string) (c : string) : joined (cs ++ [c]) = joined cs +:+ c.
Proof.
  unfold joined. induction cs as [|x cs IH]; simpl.
  - apply string_app_nil_r.
  - rewrite IH. symmetry. apply string_app_assoc.
Qed.

Lemma token_len_nonneg (chunk : string) : 0 <= token_len chunk.
Proof. unfold token_len. lia. Qed.

Lemma total_tokens_nonneg (cs : list string) : 0 <= total_tokens cs.
Proof.
  induction cs as [|c cs IH]; simpl; [lia |].
  pose proof (token_len_nonneg c). lia.
Qed.

Section Streaming.

Context (server : list event -> outcome) (self : TensalisClient).

Local Abbreviation for_loop := (for_loop server self).
Local Abbreviation next := (next server self).
Local Abbreviation advance := (advance server self).
Local Abbreviation collect := (collect server self).
Local Abbreviation verify := (verify server self).
Local Abbreviation loop_step := (loop_step server self).
Local Abbreviation verifier_always := (verifier_always server self).

Lemma for_loop_step (l : locals) (w : world) : loop_step l w (for_loop l w).
Proof.
  unfold for_loop.
  destruct (chunks w) as [|chunk rest] eqn:Ec; [by constructor |].
  cbn [consume_chunk token_count check_interval accumulated context].
  destruct (Z.geb_spec (token_count l + token_len chunk) (check_interval l)) as [Hge|Hlt].
  - destruct (verify _ _ _ _) as [[e|r] w'] eqn:Ev.
    + eapply step_raised; eauto.
    + eapply step_checked; eauto.
  - by apply step_pending.
Qed.

(** [verify] only appends to the log and leaves the chunk source alone. *)
Lemma verify_world response context metadata w :
  exists more, logged w more (verify response context metadata w).2.
Proof.
  destruct (verify_logged server self response context metadata w) as (more & H & _).
  by exists more.
Qed.

Lemma checked_unit_terminal chunk r :
  is_terminal (checked_unit chunk r) = is_blocked r.
Proof. unfold is_terminal, checked_unit. simpl. by destruct (is_blocked r). Qed.

Lemma checked_unit_blocked chunk r :
  is_blocked r = true ->
  checked_unit chunk r
  = {| text := chunk; unit_status := JStr "BLOCKED"; result := Some (_data r) |}.
Proof.
  intros Hb. unfold checked_unit. rewrite Hb.
  apply json_eq_str_true in Hb. by rewrite Hb.
Qed.

(** What a yielding [next] can be: the [else] branch, or the checked
    branch with the verdict that [verify] returned on the accumulated
    text. *)
Lemma next_yield_inv g w u g' w' :
  next g w = (Yield u, g', w') ->
  exists l chunk rest,
    resume_locals g = Some l /\ chunks w = chunk :: rest /\ chunks w' = rest /\
    ((u = pending_unit chunk /\ g' = AtYieldPending (consume_chunk l chunk) /\
      w' = with_chunks w rest /\
      token_count l + token_len chunk < check_interval l) \/
     (exists r, u = checked_unit chunk r /\ g' = AtYieldChecked (consume_chunk l chunk) r /\
        check_interval l <= token_count l + token_len chunk /\
        verify (accumulated l +:+ chunk) (CtxList (context l)) None (with_chunks w rest)
          = (inr r, w'))).
Proof.
  unfold next. destruct (resume_locals g) as [l|]; [| discriminate].
  intros H. pose proof (for_loop_step l w) as Hs. rewrite H in Hs.
  inversion Hs; subst.
  - exists l, chunk, rest. repeat split; try done. left. by repeat split.
  - exists l, chunk, rest. repeat split; try done.
    + destruct (verify_world (accumulated l +:+ chunk) (CtxList (context l)) None
                  (with_chunks w rest)) as (more & Hm).
      match goal with Hv : verify _ _ _ _ = _ |- _ => rewrite Hv in Hm end.
      simpl in Hm. by rewrite (logged_chunks _ _ _ Hm).
    + right. exists r. by repeat split.
Qed.

(** C10: every unit that [next] ever yields has a [None] result unless
    its status is the string BLOCKED (and then it has one); in particular
    PENDING units and units of a VERIFIED or WARNING check carry no
    verdict dictionary. *)
Theorem result_only_when_blocked n g w sigs g' w' u :
  advance n g w = (sigs, g', w') ->
  In (Yield u) sigs ->
  (result u = None <-> json_eq_str (unit_status u) "BLOCKED" = false) /\
  (is_pending u = true -> result u = None).
Proof.
  revert g w sigs g' w'. induction n as [|n IH]; intros g w sigs g' w'.
  - intros [= <- _ _] [].
  - cbn [advance].
    destruct (next g w) as [[s g1] w1] eqn:En.
    destruct (advance n g1 w1) as [[ss g2] w2] eqn:Ea.
    intros [= <- _ _] [Hs | Hin]; [| by eapply IH].
    subst s. apply next_yield_inv in En.
    destruct En as (l & chunk & rest & _ & _ & _ & [(-> & _) | (r & -> & _)]).
    + by repeat split.
    + unfold checked_unit, is_pending, is_blocked. simpl.
      destruct (status r) as [| | | |s| |]; simpl; try by repeat split.
      destruct (String.eqb_spec s "BLOCKED") as [->|Hne]; simpl.
      * by repeat split.
      * by repeat split.
Qed.

(** C3 (amended): the unit that [next] yields when the verdict is
    blocked has the current chunk as its text, the string BLOCKED as its
    status and the verdict's dictionary as its result; the chunk is the
    one just pulled from the source. *)
Theorem terminal_unit_carries_verdict_and_chunk g w u g' w' :
  next g w = (Yield u, g', w') ->
  is_terminal u = true ->
  exists chunk l r,
    chunks w = chunk :: chunks w' /\
    g' = AtYieldChecked l r /\ is_blocked r = true /\
    u = {| text := chunk; unit_status := JStr "BLOCKED"; result := Some (_data r) |}.
Proof.
  intros Hn Ht. apply next_yield_inv in Hn.
  destruct Hn as (l & chunk & rest & _ & Hc & Hc' & [(-> & _) | (r & -> & -> & _)]).
  - discriminate Ht.
  - rewrite checked_unit_terminal in Ht.
    exists chunk, (consume_chunk l chunk), r.
    rewrite Hc, Hc'. repeat split; [done |]. by apply checked_unit_blocked.
Qed.

(** *** After the end *)

Lemma next_not_resumable g w :
  resume_locals g = None -> next g w = (StopIteration, Finished, w).
Proof. unfold next. by intros ->. Qed.

Lemma advance_not_resumable n g w :
  resume_locals g = None ->
  advance n g w
  = (repeat StopIteration n, match n with O => g | S _ => Finished end, w).
Proof.
  revert g. induction n as [|n IH]; intros g Hg; [reflexivity |].
  cbn [advance repeat]. rewrite (next_not_resumable g w Hg).
  rewrite (IH Finished eq_refl). by destruct n.
Qed.

(** A call of [next] that does not yield finishes the generator. *)
Lemma next_no_yield g w s g' w' :
  next g w = (s, g', w') ->
  (forall u, s <> Yield u) ->
  g' = Finished.
Proof.
  unfold next. destruct (resume_locals g) as [l|]; [| by intros [= _ <- _]].
  intros H Hs. pose proof (for_loop_step l w) as Hl. rewrite H in Hl.
  inversion Hl; subst; try reflexivity; by edestruct Hs.
Qed.

(** C1: when [n + 1] calls of [next] leave the generator suspended in the
    checked branch with a blocked verdict, then every one of these calls
    yielded a unit, the last unit is the only terminal one and carries
    that verdict, exactly [n + 1] chunks have been pulled, and any number
    of further calls gives [StopIteration] only and leaves the world as it
    is: the source keeps its remaining chunks and the log gets no further
    request. *)
Theorem blocked_verdict_terminates n g w sigs l r w1 :
  advance (S n) g w = (sigs, AtYieldChecked l r, w1) ->
  is_blocked r = true ->
  (exists pre u,
     sigs = (Yield <$> pre) ++ [Yield u] /\
     Forall (fun v => is_terminal v = false) pre /\
     is_terminal u = true /\ result u = Some (_data r)) /\
  chunks w1 = drop (S n) (chunks w) /\
  (forall m, exists g',
     advance m (AtYieldChecked l r) w1 = (repeat StopIteration m, g', w1)) /\
  (forall fuel, collect (S fuel) (AtYieldChecked l r) w1 = Some ([], Exhausted, w1)).
Proof.
  intros Ha Hb. split; [| split; [| split]]; cycle 3.
  { intros fuel. cbn [collect].
    rewrite next_not_resumable; [reflexivity |]. simpl. by rewrite Hb. }
  - revert g w sigs Ha. induction n as [|n IH]; intros g w sigs.
    + cbn [advance]. destruct (next g w) as [[s g1] w'] eqn:En.
      intros [= <- -> ->].
      destruct s as [u| |e];
        [| by apply next_no_yield in En | by apply next_no_yield in En].
      apply next_yield_inv in En.
      destruct En as (l0 & chunk & rest & _ & _ & _ & [(_ & [=] & _) | (r0 & -> & [= _ <-] & _)]).
      exists [], (checked_unit chunk r). repeat split; [constructor | |].
      * by rewrite checked_unit_terminal.
      * unfold checked_unit. simpl. by rewrite Hb.
    + change (advance (S (S n)) g w)
        with (let '(s, g1, w') := next g w in
              let '(ss, g2, w2) := advance (S n) g1 w' in (s :: ss, g2, w2)).
      destruct (next g w) as [[s g1] w'] eqn:En.
      destruct (advance (S n) g1 w') as [[ss g2] w2] eqn:Ea.
      intros [= <- -> ->].
      assert (Hres : exists l1, resume_locals g1 = Some l1).
      { destruct (resume_locals g1) as [l1|] eqn:Er; [by exists l1 |].
        by rewrite (advance_not_resumable (S n) g1 w' Er) in Ea. }
      destruct Hres as (l1 & Hl1).
      destruct s as [u0| |e];
        [| apply next_no_yield in En; [by subst g1 | done]
         | apply next_no_yield in En; [by subst g1 | done]].
      destruct (IH g1 w' ss Ea) as (pre & u & -> & Hpre & Hu & Hru).
      exists (u0 :: pre), u. repeat split; [| done | done].
      constructor; [| done].
      destruct (is_terminal u0) eqn:Et; [| reflexivity].
      apply next_yield_inv in En.
      destruct En as (l0 & chunk & rest & _ & _ & _ & [(-> & _) | (r0 & -> & -> & _)]);
        [discriminate Et |].
      rewrite checked_unit_terminal in Et. simpl in Hl1. by rewrite Et in Hl1.
  - revert g w sigs Ha. induction n as [|n IH]; intros g w sigs.
    + cbn [advance]. destruct (next g w) as [[s g1] w'] eqn:En.
      intros [= <- -> ->].
      destruct s as [u| |e];
        [| by apply next_no_yield in En | by apply next_no_yield in En].
      apply next_yield_inv in En.
      destruct En as (l0 & chunk & rest & _ & -> & -> & _). reflexivity.
    + change (advance (S (S n)) g w)
        with (let '(s, g1, w') := next g w in
              let '(ss, g2, w2) := advance (S n) g1 w' in (s :: ss, g2, w2)).
      destruct (next g w) as [[s g1] w'] eqn:En.
      destruct (advance (S n) g1 w') as [[ss g2] w2] eqn:Ea.
      intros [= <- -> ->].
      rewrite (IH g1 w' ss Ea).
      destruct s as [u0| |e].
      * apply next_yield_inv in En.
        destruct En as (l0 & chunk & rest & _ & -> & -> & _). reflexivity.
      * apply next_no_yield in En; [| done]. subst g1.
        by rewrite (advance_not_resumable (S n) Finished w' eq_refl) in Ea.
      * apply next_no_yield in En; [| done]. subst g1.
        by rewrite (advance_not_resumable (S n) Finished w' eq_refl) in Ea.
  - intros m. eexists. apply advance_not_resumable. simpl. by rewrite Hb.
Qed.

(** *** What is verified *)

Lemma in_step_start src ctx k log0 :
  in_step src ctx 0 (verify_stream ctx k) {| chunks := src; log := log0 |}.
Proof. intros l [= <-]. by repeat split. Qed.

Lemma drop_cons_take {A} (src : list A) n x rest :
  drop n src = x :: rest ->
  take (S n) src = take n src ++ [x] /\ drop (S n) src = rest.
Proof.
  revert src. induction n as [|n IH]; intros [|y src]; simpl; try discriminate.
  - by intros [= -> ->].
  - intros H. destruct (IH src H) as [-> ->]. done.
Qed.

Lemma for_loop_pending l w chunk rest :
  chunks w = chunk :: rest ->
  token_count l + token_len chunk < check_interval l ->
  for_loop l w = (Yield (pending_unit chunk), AtYieldPending (consume_chunk l chunk),
                  with_chunks w rest).
Proof.
  intros Hc Hlt. unfold for_loop. rewrite Hc.
  cbn [consume_chunk token_count check_interval].
  destruct (Z.geb_spec (token_count l + token_len chunk) (check_interval l)); [lia | done].
Qed.

Lemma for_loop_checked l w chunk rest r w' :
  chunks w = chunk :: rest ->
  check_interval l <= token_count l + token_len chunk ->
  verify (accumulated l +:+ chunk) (CtxList (context l)) None (with_chunks w rest)
    = (inr r, w') ->
  for_loop l w = (Yield (checked_unit chunk r), AtYieldChecked (consume_chunk l chunk) r, w').
Proof.
  intros Hc Hge Hv. unfold for_loop. rewrite Hc.
  cbn [consume_chunk token_count check_interval accumulated context].
  destruct (Z.geb_spec (token_count l + token_len chunk) (check_interval l)); [| lia].
  by rewrite Hv.
Qed.

Lemma for_loop_raised l w chunk rest e w' :
  chunks w = chunk :: rest ->
  check_interval l <= token_count l + token_len chunk ->
  verify (accumulated l +:+ chunk) (CtxList (context l)) None (with_chunks w rest)
    = (inl e, w') ->
  for_loop l w = (Raise e, Finished, w').
Proof.
  intros Hc Hge Hv. unfold for_loop. rewrite Hc.
  cbn [consume_chunk token_count check_interval accumulated context].
  destruct (Z.geb_spec (token_count l + token_len chunk) (check_interval l)); [| lia].
  by rewrite Hv.
Qed.

(** One call of [next] from a state in step: the state stays in step, the
    log only grows, and every request added carries the concatenation of
    the chunks pulled so far, the one of this call included. *)
Lemma next_in_step src ctx n g w s g' w' :
  in_step src ctx n g w ->
  next g w = (s, g', w') ->
  in_step src ctx (S n) g' w' /\
  exists more,
    log w' = log w ++ more /\
    Forall (fun e => is_request e = true ->
              e = EvRequest "POST" (endpoint self +:+ "/verify")
                    (Some (verify_payload (joined (take (S n) src))
                             (normalize_context ctx)))
                    (timeout self)) more /\
    (forall l' r, g' = AtYieldChecked l' r -> exists rest,
       more = EvRequest "POST" (endpoint self +:+ "/verify")
                (Some (verify_payload (joined (take (S n) src))
                         (normalize_context ctx)))
                (timeout self) :: rest).
Proof.
  intros Hin. unfold next.
  destruct (resume_locals g) as [l|] eqn:Er.
  2:{ intros [= <- <- <-]. split; [by intros l [=] |].
      exists []. rewrite app_nil_r. by repeat split. }
  destruct (Hin l Er) as (Hctx & Hacc & Hsrc).
  intros H. pose proof (for_loop_step l w) as Hs. rewrite H in Hs.
  inversion Hs; subst.
  - split; [by intros l0 [=] |]. exists []. rewrite app_nil_r. by repeat split.
  - match goal with Hc : chunks w = _ |- _ => rewrite Hc in Hsrc end.
    symmetry in Hsrc. destruct (drop_cons_take _ _ _ _ Hsrc) as [Ht Hd].
    split.
    + intros l0 [= <-]. simpl. rewrite Hctx, Hacc, Ht, joined_snoc, Hd. done.
    + exists []. simpl. rewrite app_nil_r. by repeat split.
  - match goal with Hc : chunks w = _ |- _ => rewrite Hc in Hsrc end.
    symmetry in Hsrc. destruct (drop_cons_take _ _ _ _ Hsrc) as [Ht Hd].
    split; [by intros l0 [=] |].
    destruct (verify_logged server self (accumulated l +:+ chunk) (CtxList (context l))
                None (with_chunks w rest)) as (more & Hl & Hf & _).
    match goal with Hv : verify _ _ _ _ = _ |- _ => rewrite Hv in Hl end.
    simpl in Hl, Hf. exists more. rewrite Hl. simpl.
    rewrite Hacc, Hctx, Ht, joined_snoc in *. by repeat split.
  - match goal with Hc : chunks w = _ |- _ => rewrite Hc in Hsrc end.
    symmetry in Hsrc. destruct (drop_cons_take _ _ _ _ Hsrc) as [Ht Hd].
    destruct (verify_logged server self (accumulated l +:+ chunk) (CtxList (context l))
                None (with_chunks w rest)) as (more & Hl & Hf & Hfirst).
    match goal with Hv : verify _ _ _ _ = _ |- _ =>
      rewrite Hv in Hl; pose proof Hv as Hv' end.
    simpl in Hl, Hf, Hfirst. split.
    + intros l0. simpl. destruct (is_blocked r); [discriminate |].
      intros [= <-]. simpl. rewrite Hctx, Hacc, Ht, joined_snoc, Hl. simpl. by rewrite Hd.
    + exists more. rewrite Hl. simpl.
      rewrite Hacc, Hctx, Ht, joined_snoc in *. repeat split; [done |].
      intros _ _ _. apply Hfirst.
      unfold verify, _request, io_bind in Hv'.
      destruct (Z.to_nat (retries self)) eqn:En; [| lia].
      simpl in Hv'. discriminate Hv'.
Qed.

Lemma advance_in_step src ctx n :
  forall m g w sigs g' w',
    in_step src ctx m g w ->
    advance n g w = (sigs, g', w') ->
    in_step src ctx (n + m) g' w'.
Proof.
  induction n as [|n IH]; intros m g w sigs g' w' Hin.
  - by intros [= _ <- <-].
  - cbn [advance].
    destruct (next g w) as [[s g1] w1] eqn:En.
    destruct (advance n g1 w1) as [[ss g2] w2] eqn:Ea.
    intros [= _ <- <-].
    destruct (next_in_step src ctx m g w s g1 w1 Hin En) as [Hin1 _].
    replace (S n + m)%nat with (n + S m)%nat by lia.
    by eapply IH.
Qed.

(** A call of [next] that reaches the threshold, with a positive retry
    budget: the first thing it adds to the log is the request of the
    check. *)
Lemma next_check_sends src ctx n g w s g' w' l chunk rest :
  in_step src ctx n g w ->
  next g w = (s, g', w') ->
  0 < retries self ->
  resume_locals g = Some l ->
  chunks w = chunk :: rest ->
  check_interval l <= token_count l + token_len chunk ->
  exists rest',
    log w' = log w ++
      EvRequest "POST" (endpoint self +:+ "/verify")
        (Some (verify_payload (joined (take (S n) src)) (normalize_context ctx)))
        (timeout self) :: rest'.
Proof.
  intros Hin Hn Hpos Er Hc Hge.
  destruct (Hin l Er) as (Hctx & Hacc & Hsrc).
  rewrite Hc in Hsrc. symmetry in Hsrc.
  destruct (drop_cons_take _ _ _ _ Hsrc) as [Ht Hd].
  destruct (verify_logged server self (accumulated l +:+ chunk) (CtxList (context l))
              None (with_chunks w rest)) as (more & Hl & _ & Hfirst).
  destruct (Hfirst Hpos) as (rest' & ->). exists rest'.
  unfold next in Hn. rewrite Er in Hn.
  destruct (verify (accumulated l +:+ chunk) (CtxList (context l)) None
              (with_chunks w rest)) as [[e|r] w1] eqn:Ev.
  - rewrite (for_loop_raised l w chunk rest e w1 Hc Hge Ev) in Hn.
    injection Hn as <- <- <-. simpl in Hl. rewrite Hl. simpl.
    by rewrite Hacc, Hctx, Ht, joined_snoc.
  - rewrite (for_loop_checked l w chunk rest r w1 Hc Hge Ev) in Hn.
    injection Hn as <- <- <-. simpl in Hl. rewrite Hl. simpl.
    by rewrite Hacc, Hctx, Ht, joined_snoc.
Qed.

(** C2: in a stream over the chunks [src] with context [ctx], every
    request that the [n + 1]-th call of [next] sends is a POST to
    [/verify] whose body has, under ["response"], the concatenation of the
    first [n + 1] chunks, all the text pulled so far and not the current
    chunk alone, and, under ["reference_facts"], the normalised context.
    When that call runs a check that returns a verdict, such a request is
    the first thing it adds to the log; and, with a positive retry budget,
    whenever the chunk it pulls brings [token_count] to [check_interval]
    or beyond, such a request is sent, first of all. *)
Theorem check_sends_accumulated_text src ctx k log0 n sigs g w s g' w' :
  let carries (e : event) :=
    exists d,
      e = EvRequest "POST" (endpoint self +:+ "/verify") (Some d) (timeout self) /\
      d !! "response" = Some (JStr (joined (take (S n) src))) /\
      d !! "reference_facts" = Some (JList (JStr <$> normalize_context ctx)) in
  advance n (verify_stream ctx k) {| chunks := src; log := log0 |} = (sigs, g, w) ->
  next g w = (s, g', w') ->
  exists more,
    log w' = log w ++ more /\
    Forall (fun e => is_request e = true -> carries e) more /\
    (forall l' r, g' = AtYieldChecked l' r ->
       exists e rest, more = e :: rest /\ carries e) /\
    (0 < retries self ->
     forall l chunk rest,
       resume_locals g = Some l ->
       chunks w = chunk :: rest ->
       check_interval l <= token_count l + token_len chunk ->
       exists e rest', more = e :: rest' /\ carries e).
Proof.
  intros carries Ha Hn.
  pose proof (advance_in_step src ctx n 0 _ _ _ _ _ (in_step_start src ctx k log0) Ha) as Hin.
  rewrite Nat.add_0_r in Hin.
  assert (Hreq : carries
            (EvRequest "POST" (endpoint self +:+ "/verify")
               (Some (verify_payload (joined (take (S n) src)) (normalize_context ctx)))
               (timeout self))).
  { eexists. split; [reflexivity |]. split.
    - apply verify_payload_response.
    - apply verify_payload_reference_facts. }
  destruct (next_in_step src ctx n g w s g' w' Hin Hn) as [_ (more & Hl & Hf & Hfirst)].
  exists more. split; [exact Hl |]. split; [| split].
  - eapply Forall_impl; [exact Hf |]. intros e He Hr. by rewrite (He Hr).
  - intros l' r Hg. destruct (Hfirst l' r Hg) as (rest & ->). by eexists _, rest.
  - intros Hpos l chunk rest Er Hc Hge.
    destruct (next_check_sends src ctx n g w s g' w' l chunk rest Hin Hn Hpos Er Hc Hge)
      as (rest' & Hl').
    rewrite Hl in Hl'. apply app_inv_head in Hl'. subst more. by eexists _, rest'.
Qed.

(** *** The cadence of checks *)

(** [list(gen)] terminates: one call more than there are chunks left is
    always enough. *)
Lemma collect_terminates fuel :
  forall g w, (length (chunks w) < fuel)%nat ->
  exists us e w', collect fuel g w = Some (us, e, w').
Proof.
  induction fuel as [|fuel IH]; intros g w Hlen; [lia |].
  cbn [collect].
  destruct (next g w) as [[s g1] w1] eqn:En.
  destruct s as [u| |e]; [| by eauto | by eauto].
  apply next_yield_inv in En.
  destruct En as (l & chunk & rest & _ & Hc & Hc' & _).
  destruct (IH g1 w1) as (us & e & w' & ->); [| by eauto].
  rewrite Hc', Hc in *. simpl in Hlen. lia.
Qed.

(** C5: when the chunks left in the source cannot bring the counter up to
    [check_interval], consuming the generator to its end yields one
    PENDING unit per chunk, ends normally with the source exhausted, and
    leaves the log as it was: the remainder is never sent for
    verification. *)
Theorem remainder_below_interval_not_verified g w l fuel :
  resume_locals g = Some l ->
  token_count l + total_tokens (chunks w) < check_interval l ->
  (length (chunks w) < fuel)%nat ->
  collect fuel g w
  = Some (pending_unit <$> chunks w, Exhausted, {| chunks := []; log := log w |}).
Proof.
  remember (chunks w) as cs eqn:Hcs. revert g w l fuel Hcs.
  induction cs as [|c cs IH]; intros g w l fuel Hcs Hl Hlt Hfuel;
    (destruct fuel as [|fuel]; [simpl in Hfuel; lia |]);
    cbn [collect]; unfold next; rewrite Hl.
  - unfold for_loop. rewrite <- Hcs. destruct w as [cw lw].
    simpl in Hcs. by subst cw.
  - simpl in Hlt. pose proof (total_tokens_nonneg cs). pose proof (token_len_nonneg c).
    rewrite (for_loop_pending l w c cs); [| done | lia].
    rewrite (IH (AtYieldPending (consume_chunk l c)) (with_chunks w cs)
               (consume_chunk l c) fuel); try done.
    + simpl. lia.
    + simpl in Hfuel. lia.
Qed.

(** Single-token chunks under a verifier that always returns VERIFIED:
    one unit per chunk, none terminal, and as many non-PENDING units as
    the interval fits into the tokens carried plus those to come. *)
Lemma single_token_run src :
  forall g w l fuel,
    Forall single_token src ->
    chunks w = src ->
    resume_locals g = Some l ->
    0 <= token_count l < check_interval l ->
    verifier_always "VERIFIED" ->
    (length src < fuel)%nat ->
    exists us w',
      collect fuel g w = Some (us, Exhausted, w') /\
      length us = length src /\
      Z.of_nat (length (List.filter (fun u => negb (is_pending u)) us))
        = (token_count l + Z.of_nat (length src)) / check_interval l /\
      Forall (fun u => is_terminal u = false) us.
Proof.
  induction src as [|c src IH]; intros g w l fuel Hsingle Hcs Hl Htc Hver Hfuel;
    (destruct fuel as [|fuel]; [simpl in Hfuel; lia |]);
    cbn [collect]; unfold next; rewrite Hl.
  - unfold for_loop. rewrite Hcs. exists [], w.
    repeat split; [| constructor]. simpl.
    rewrite Z.add_0_r, Z.div_small; [done | lia].
  - inversion Hsingle as [|? ? Hc Hrest]; subst.
    unfold single_token in Hc. simpl in Hfuel.
    destruct (Z.lt_ge_cases (token_count l + token_len c) (check_interval l)) as [Hlt|Hge].
    + rewrite (for_loop_pending l w c src Hcs Hlt).
      destruct (IH (AtYieldPending (consume_chunk l c)) (with_chunks w src)
                  (consume_chunk l c) fuel) as (us & w' & -> & Hlen & Hcount & Hterm);
        try done; [simpl; lia | lia |].
      exists (pending_unit c :: us), w'. repeat split.
      * simpl. by rewrite Hlen.
      * simpl. rewrite Hcount. simpl. f_equal. lia.
      * by constructor.
    + destruct (Hver (accumulated l +:+ c) (CtxList (context l)) (with_chunks w src))
        as (r & w1 & Hv & Hst).
      rewrite (for_loop_checked l w c src r w1 Hcs Hge Hv).
      assert (Hnb : is_blocked r = false) by (unfold is_blocked; by rewrite Hst).
      assert (Hw1 : chunks w1 = src).
      { destruct (verify_world (accumulated l +:+ c) (CtxList (context l)) None
                    (with_chunks w src)) as (more & Hm).
        rewrite Hv in Hm. simpl in Hm. by rewrite (logged_chunks _ _ _ Hm). }
      destruct (IH (AtYieldChecked (consume_chunk l c) r) w1
                  {| context := context l; check_interval := check_interval l;
                     accumulated := accumulated l +:+ c; token_count := 0 |} fuel)
        as (us & w' & -> & Hlen & Hcount & Hterm); try done;
        [simpl; by rewrite Hnb | simpl; lia | lia |].
      exists (checked_unit c r :: us), w'. repeat split.
      * simpl. by rewrite Hlen.
      * assert (Hnp : is_pending (checked_unit c r) = false)
          by (unfold is_pending, checked_unit; simpl; by rewrite Hst).
        cbn [token_count check_interval] in Hcount. rewrite Z.add_0_l in Hcount.
        simpl List.filter. rewrite Hnp. simpl negb. cbn iota.
        simpl length. rewrite !Nat2Z.inj_succ, Hcount.
        replace (token_count l + Z.succ (Z.of_nat (length src)))
          with (1 * check_interval l + Z.of_nat (length src)) by lia.
        rewrite Z.div_add_l by lia. lia.
      * constructor; [| done]. by rewrite checked_unit_terminal.
Qed.

(** C4: a call of [next] that pulls a chunk runs the verification exactly
    when the counter, after adding the chunk's tokens, is at least
    [check_interval]: below it the call yields the PENDING unit, keeps the
    sum in the counter and touches nothing but the source; at or above it
    the call is decided by [verify] on the accumulated text, and with a
    positive retry budget that is exactly when the log grows.  After a check
    whose verdict is not blocked the generator resumes with the counter at
    0.  Consequently 100 single-token chunks with [check_interval = 25]
    under a verifier that always returns VERIFIED give exactly 100 units,
    exactly 4 of them not PENDING, none terminal. *)
Theorem check_interval_cadence :
  (forall g w l chunk rest s g' w',
     resume_locals g = Some l ->
     chunks w = chunk :: rest ->
     next g w = (s, g', w') ->
     (token_count l + token_len chunk < check_interval l ->
      s = Yield (pending_unit chunk) /\
      g' = AtYieldPending (consume_chunk l chunk) /\
      resume_locals g' = Some (consume_chunk l chunk) /\
      w' = with_chunks w rest) /\
     (check_interval l <= token_count l + token_len chunk ->
      (s, g', w')
      = match verify (accumulated l +:+ chunk) (CtxList (context l)) None
                (with_chunks w rest) with
        | (inl e, w1) => (Raise e, Finished, w1)
        | (inr r, w1) =>
            (Yield (checked_unit chunk r), AtYieldChecked (consume_chunk l chunk) r, w1)
        end) /\
     (0 < retries self ->
      (check_interval l <= token_count l + token_len chunk <-> log w' <> log w)) /\
     (forall l' r, g' = AtYieldChecked l' r -> is_blocked r = false ->
      exists l0, resume_locals g' = Some l0 /\ token_count l0 = 0 /\
                 accumulated l0 = accumulated l +:+ chunk)) /\
  (forall src ctx log0,
     length src = 100%nat ->
     Forall single_token src ->
     verifier_always "VERIFIED" ->
     exists us w',
       collect 101 (verify_stream ctx 25) {| chunks := src; log := log0 |}
         = Some (us, Exhausted, w') /\
       length us = 100%nat /\
       length (List.filter (fun u => negb (is_pending u)) us) = 4%nat /\
       Forall (fun u => is_terminal u = false) us).
Proof.
  split.
  - intros g w l chunk rest s g' w' Hl Hc.
    unfold next. rewrite Hl.
    destruct (Z.lt_ge_cases (token_count l + token_len chunk) (check_interval l)) as [Hlt|Hge].
    + rewrite (for_loop_pending l w chunk rest Hc Hlt). intros [= <- <- <-].
      split; [by intros _ | split; [lia | split]].
      * intros _. split; [lia | by intros H].
      * by intros l' r [=].
    + destruct (verify_logged server self (accumulated l +:+ chunk) (CtxList (context l))
                  None (with_chunks w rest)) as (more & Hm & _ & Hfirst).
      assert (Hgrow : forall w1, logged (with_chunks w rest) more w1 ->
                0 < retries self -> log w1 <> log w).
      { intros w1 Hw1 Hretries. destruct (Hfirst Hretries) as (rest' & ->).
        rewrite Hw1. simpl. intros Heq. apply (f_equal length) in Heq.
        rewrite length_app in Heq. simpl in Heq. lia. }
      destruct (verify (accumulated l +:+ chunk) (CtxList (context l)) None
                  (with_chunks w rest)) as [[e|r] w1] eqn:Hv;
        [rewrite (for_loop_raised l w chunk rest e w1 Hc Hge Hv)
        |rewrite (for_loop_checked l w chunk rest r w1 Hc Hge Hv)];
        intros [= <- <- <-]; simpl in Hm;
        (split; [lia |]); (split; [done |]);
        (split; [intros Hretries; split; [intros _; by apply Hgrow | done] |]).
      * by intros l' r [=].
      * intros l' r' [= <- <-] Hnb. simpl. rewrite Hnb. by eexists.
  - intros src ctx log0 Hlen Hsingle Hver.
    destruct (single_token_run src (verify_stream ctx 25) {| chunks := src; log := log0 |}
                {| context := normalize_context ctx; check_interval := 25;
                   accumulated := ""; token_count := 0 |} 101)
      as (us & w' & Hc & Hus & Hcount & Hterm);
      [done | done | done | simpl; lia | done | rewrite Hlen; lia |].
    exists us, w'. repeat split; try done; [congruence |].
    rewrite Hlen in Hcount. cbn [token_count check_interval] in Hcount.
    change ((0 + Z.of_nat 100) / 25) with 4 in Hcount. lia.
Qed.

End Streaming.

(** ** Context normalisation *)

(** C9: a string context and the one-element list holding it are the same
    to [verify] and to [verify_stream]: the computations are equal, hence
    so are their results and everything they log; every request [verify]
    sends carries the singleton list under [reference_facts]; with a
    positive retry budget such a request is sent, as the first thing
    [verify] does; and a stream session starts with the singleton list as
    its context. *)
Theorem string_context_is_singleton
    (server : list event -> outcome) (self : TensalisClient)
    (s c : string) (metadata : option (list (string * json)))
    (k : Z) (w : world) (n : nat) :
  verify server self s (CtxStr c) metadata w
    = verify server self s (CtxList [c]) metadata w /\
  (exists more,
     logged w more (verify server self s (CtxStr c) metadata w).2 /\
     Forall (fun e => is_request e = true ->
               exists d, e = EvRequest "POST" (endpoint self +:+ "/verify") (Some d)
                               (timeout self) /\
                         d !! "reference_facts" = Some (JList [JStr c]) /\
                         d !! "response" = Some (JStr s)) more /\
     (0 < retries self ->
      exists d rest,
        more = EvRequest "POST" (endpoint self +:+ "/verify") (Some d) (timeout self)
                 :: rest /\
        d !! "reference_facts" = Some (JList [JStr c]) /\
        d !! "response" = Some (JStr s))) /\
  resume_locals (verify_stream (CtxStr c) k)
    = Some {| context := [c]; check_interval := k; accumulated := ""; token_count := 0 |} /\
  next server self (verify_stream (CtxStr c) k) w
    = next server self (verify_stream (CtxList [c]) k) w /\
  advance server self (S n) (verify_stream (CtxStr c) k) w
    = advance server self (S n) (verify_stream (CtxList [c]) k) w /\
  collect server self n (verify_stream (CtxStr c) k) w
    = collect server self n (verify_stream (CtxList [c]) k) w.
Proof.
  split; [reflexivity |]. split.
  - destruct (verify_logged server self s (CtxStr c) metadata w)
      as (more & Hl & Hf & Hfirst).
    exists more. split; [exact Hl |]. split.
    + eapply Forall_impl; [exact Hf |]. intros e He Hreq. specialize (He Hreq).
      eexists. split; [exact He |].
      destruct metadata as [[|kv kvs]|];
        rewrite ?lookup_insert_ne by discriminate;
        by rewrite verify_payload_reference_facts, verify_payload_response.
    + intros Hpos. destruct (Hfirst Hpos) as (rest & ->).
      eexists _, rest. split; [reflexivity |].
      destruct metadata as [[|kv kvs]|];
        rewrite ?lookup_insert_ne by discriminate;
        by rewrite verify_payload_reference_facts, verify_payload_response.
  - split; [reflexivity |]. split; [reflexivity |].
    split; [reflexivity | destruct n; reflexivity].
Qed.

(** ** Scenarios *)

Lemma always_verified_verifier : verifier_always always_verified test_client "VERIFIED".
Proof. intros text c w. eexists _, _. split; reflexivity. Qed.

(** The reset is a reset, not a subtraction: three-token chunks with
    [check_interval = 4] are checked every second chunk. *)
Example reset_not_subtraction :
  match collect always_verified test_client 5 (verify_stream (CtxStr "facts") 4)
          (world0 ["a b c "; "d e f "; "g h i "; "j k l "]) with
  | Some (us, e, w) =>
      map is_pending us = [true; false; true; false] /\ e = Exhausted /\
      length (requests_of (log w)) = 2%nat
  | None => False
  end.
Proof. vm_compute. by repeat split. Qed.

(** The end-to-end scenario of the single-shot verifier. *)
Example verify_blocked_scenario :
  match verify always_blocked test_client "Returns within 90 days"
          (CtxList ["Returns within 30 days"]) None (world0 []) with
  | (inr r, _) => is_blocked r = true /\ severity r = JStr "HIGH"
  | (inl _, _) => False
  end.
Proof. vm_compute. by split. Qed.

(** Rate limiting to the end: three attempts, each answered with 429 and
    [Retry-After: 2], end in the base error after three requests and three
    sleeps of two seconds. *)
Example persistent_429_trace :
  let req := EvRequest "POST" "https://api.tensalis.com/v1/verify" None 30 in
  _request always_429 test_client "POST" "/verify" None (world0 [])
  = (inl (TensalisError "Request failed after retries"),
     {| chunks := [];
        log := [req; EvSleep 2; req; EvSleep 2; req; EvSleep 2] |}).
Proof. vm_compute. reflexivity. Qed.

(** C8, as stated, fails: with an empty response text and an empty context
    [verify] raises nothing, sends the request and returns the verdict. *)
Lemma verify_empty_inputs_counterexample :
  let run := verify always_verified test_client "" (CtxList []) None (world0 []) in
  run = (inr (mkVerificationResult {["status" := JStr "VERIFIED"]}),
         {| chunks := [];
            log := [EvRequest "POST" "https://api.tensalis.com/v1/verify"
                      (Some (<["reference_facts" := JList []]>
                               (<["response" := JStr ""]> ∅))) 30] |}) /\
  ~ (exists e, run.1 = inl e /\ is_validation_error e = true) /\
  requests_of (log run.2) <> [].
Proof.
  vm_compute. split; [reflexivity |]. split.
  - intros (e & He & _). discriminate He.
  - discriminate.
Qed.

(** C3, as stated, fails: the terminal unit carries the text of the chunk
    that triggered the check. *)
Lemma terminal_unit_text_counterexample :
  let u := {| text := "Returns within 90 days"; unit_status := JStr "BLOCKED";
              result := Some blocked_payload |} in
  collect always_blocked test_client 3 (verify_stream (CtxList ["Returns within 30 days"]) 3)
    (world0 ["Returns within 90 days"; " of purchase"])
  = Some ([u], Exhausted,
          {| chunks := [" of purchase"];
             log := [EvRequest "POST" "https://api.tensalis.com/v1/verify"
                       (Some (verify_payload "Returns within 90 days"
                                ["Returns within 30 days"])) 30] |}) /\
  is_terminal u = true /\ text u <> "".
Proof. vm_compute. by repeat split. Qed.

(** ** Instances of the theorems on the scenarios *)

Lemma blocked_verdict_terminates_witness :
  chunks blocked_world = drop 1 blocked_source /\
  forall fuel,
    collect always_blocked test_client (S fuel)
      (AtYieldChecked blocked_locals (mkVerificationResult blocked_payload)) blocked_world
    = Some ([], Exhausted, blocked_world).
Proof.
  pose proof (blocked_verdict_terminates always_blocked test_client 0
                (verify_stream blocked_context 3) (world0 blocked_source)
                [Yield blocked_unit] blocked_locals
                (mkVerificationResult blocked_payload) blocked_world) as H.
  destruct H as (_ & Hchunks & _ & Hcollect).
  - vm_compute. reflexivity.
  - vm_compute. reflexivity.
  - split; [exact Hchunks | exact Hcollect].
Defined.

Lemma terminal_unit_carries_verdict_and_chunk_witness :
  exists chunk l r,
    chunks (world0 blocked_source) = chunk :: chunks blocked_world /\
    AtYieldChecked blocked_locals (mkVerificationResult blocked_payload)
      = AtYieldChecked l r /\
    is_blocked r = true /\
    blocked_unit = {| text := chunk; unit_status := JStr "BLOCKED";
                      result := Some (_data r) |}.
Proof.
  apply (terminal_unit_carries_verdict_and_chunk always_blocked test_client
           (verify_stream blocked_context 3) (world0 blocked_source) blocked_unit
           (AtYieldChecked blocked_locals (mkVerificationResult blocked_payload))
           blocked_world).
  - vm_compute. reflexivity.
  - vm_compute. reflexivity.
Defined.

Lemma check_sends_accumulated_text_witness :
  let w := {| chunks := ["b "; "c "]; log := [] |} in
  let w' :=
    {| chunks := ["c "];
       log := [EvRequest "POST" "https://api.tensalis.com/v1/verify"
                 (Some (<["reference_facts" := JList [JStr "facts"]]>
                          (<["response" := JStr "a b "]> ∅))) 30] |} in
  let carries (e : event) :=
    exists d,
      e = EvRequest "POST" "https://api.tensalis.com/v1/verify" (Some d) 30 /\
      d !! "response" = Some (JStr "a b ") /\
      d !! "reference_facts" = Some (JList [JStr "facts"]) in
  exists more,
    log w' = log w ++ more /\
    Forall (fun e => is_request e = true -> carries e) more /\
    (forall l' r,
       AtYieldChecked {| context := ["facts"]; check_interval := 2;
                         accumulated := "a b "; token_count := 2 |}
         (mkVerificationResult {["status" := JStr "VERIFIED"]})
       = AtYieldChecked l' r ->
       exists e rest, more = e :: rest /\ carries e) /\
    (0 < 3 ->
     forall l chunk rest,
       Some {| context := ["facts"]; check_interval := 2;
               accumulated := "a "; token_count := 1 |} = Some l ->
       ["b "; "c "] = chunk :: rest ->
       check_interval l <= token_count l + token_len chunk ->
       exists e rest', more = e :: rest' /\ carries e).
Proof.
  intros w w' carries.
  apply (check_sends_accumulated_text always_verified test_client cadence_source
           (CtxStr "facts") 2 [] 1 [Yield (pending_unit "a ")]
           (AtYieldPending {| context := ["facts"]; check_interval := 2;
                              accumulated := "a "; token_count := 1 |})
           w
           (Yield {| text := "b "; unit_status := JStr "VERIFIED"; result := None |})).
  - vm_compute. reflexivity.
  - vm_compute. reflexivity.
Defined.

Lemma check_interval_cadence_witness :
  exists us w',
    collect always_verified test_client 101 (verify_stream (CtxStr "facts") 25)
      {| chunks := repeat "tok " 100; log := [] |}
    = Some (us, Exhausted, w') /\
    length us = 100%nat /\
    length (List.filter (fun u => negb (is_pending u)) us) = 4%nat /\
    Forall (fun u => is_terminal u = false) us.
Proof.
  apply (proj2 (check_interval_cadence always_verified test_client)).
  - vm_compute. reflexivity.
  - apply Forall_forall. intros x Hx. apply list_elem_of_In, repeat_spec in Hx.
    subst x. vm_compute. reflexivity.
  - exact always_verified_verifier.
Defined.

Lemma remainder_below_interval_not_verified_witness :
  collect always_verified test_client 3 (verify_stream (CtxStr "facts") 5)
    (world0 ["a b "; "c "])
  = Some ([pending_unit "a b "; pending_unit "c "], Exhausted, world0 []).
Proof.
  apply (remainder_below_interval_not_verified always_verified test_client
           (verify_stream (CtxStr "facts") 5) (world0 ["a b "; "c "])
           {| context := ["facts"]; check_interval := 5;
              accumulated := ""; token_count := 0 |} 3).
  - reflexivity.
  - vm_compute. reflexivity.
  - simpl. lia.
Defined.

Lemma persistent_429_raises_base_error_witness :
  exists w',
    _request always_429 test_client "POST" "/verify" None (world0 [])
      = (inl (TensalisError "Request failed after retries"), w') /\
    is_rate_limit_error (TensalisError "Request failed after retries") = false /\
    length (requests_of (log w')) = 3%nat.
Proof.
  apply (persistent_429_raises_base_error always_429 test_client "POST" "/verify" None
           (world0 [])).
  intros l. eexists. split; [reflexivity |]. split; [reflexivity |].
  right. exists 2. split; [reflexivity | unfold MAX_SLEEP; lia].
Defined.

Lemma verify_sends_without_validation_witness :
  (exists payload,
     payload !! "response" = Some (JStr "") /\
     payload !! "reference_facts" = Some (JList []) /\
     (0 < 3 -> exists rest,
        log (verify always_verified test_client "" (CtxList []) None (world0 [])).2
        = [] ++ EvRequest "POST" "https://api.tensalis.com/v1/verify" (Some payload) 30
                :: rest) /\
     (forall e,
        (verify always_verified test_client "" (CtxList []) None (world0 [])).1 = inl e ->
        (_request always_verified test_client "POST" "/verify" (Some payload)
           (world0 [])).1 = inl e)) /\
  (forall e,
     (verify always_verified test_client "" (CtxList []) None (world0 [])).1 = inl e ->
     is_validation_error e = false).
Proof.
  apply (verify_sends_without_validation always_verified test_client "" (CtxList []) None
           (world0 [])).
Defined.

Lemma string_context_is_singleton_witness :
  exists d rest,
    log (verify always_verified test_client "Test response."
           (CtxStr "Single context string.") None (world0 [])).2
    = EvRequest "POST" "https://api.tensalis.com/v1/verify" (Some d) 30 :: rest /\
    d !! "reference_facts" = Some (JList [JStr "Single context string."]) /\
    d !! "response" = Some (JStr "Test response.").
Proof.
  destruct (string_context_is_singleton always_verified test_client "Test response."
              "Single context string." None 50 (world0 []) 0)
    as (_ & (more & Hl & _ & Hfirst) & _).
  destruct Hfirst as (d & rest & Hm & Hfacts & Hresp); [reflexivity |].
  exists d, rest. split; [| split; [exact Hfacts | exact Hresp]].
  rewrite Hl, Hm. reflexivity.
Defined.

Lemma result_only_when_blocked_witness :
  (result (pending_unit "a ") = None <->
   json_eq_str (unit_status (pending_unit "a ")) "BLOCKED" = false) /\
  (is_pending (pending_unit "a ") = true -> result (pending_unit "a ") = None).
Proof.
  apply (result_only_when_blocked always_verified test_client 2
           (verify_stream (CtxStr "facts") 2) (world0 cadence_source)
           [Yield (pending_unit "a ");
            Yield {| text := "b "; unit_status := JStr "VERIFIED"; result := None |}]
           (AtYieldChecked {| context := ["facts"]; check_interval := 2;
                              accumulated := "a b "; token_count := 2 |}
              (mkVerificationResult {["status" := JStr "VERIFIED"]}))
           {| chunks := ["c "];
              log := [EvRequest "POST" "https://api.tensalis.com/v1/verify"
                        (Some (verify_payload "a b " ["facts"])) 30] |}).
  - vm_compute. reflexivity.
  - left. reflexivity.
Defined.

(** * Further properties of the transport *)

Lemma attempts_requests req n more :
  is_request req = true ->
  attempts req n more ->
  (length (requests_of more) <= n)%nat /\
  Forall (fun e => is_request e = true -> e = req) more.
Proof.
  intros Hreq H. induction H as [n|n rest H [IHn IHf]|n seconds rest H [IHn IHf]].
  - split; [simpl; lia | constructor].
  - unfold requests_of in *. simpl. rewrite Hreq. simpl. split; [lia |].
    constructor; [done | exact IHf].
  - unfold requests_of in *. simpl. rewrite Hreq. simpl. split; [lia |].
    constructor; [done |]. constructor; [discriminate | exact IHf].
Qed.

Section TransportMore.

Context (server : list event -> outcome) (self : TensalisClient).

Lemma request_loop_attempts method url payload todo :
  forall attempt last_error w,
  exists more,
    logged w more (request_loop server self method url payload todo attempt last_error w).2 /\
    attempts (EvRequest method url payload (timeout self)) todo more.
Proof.
  set (req := EvRequest method url payload (timeout self)).
  induction todo as [|todo IH]; intros attempt last_error w.
  - exists []. split; [apply logged_refl | constructor].
  - assert (Hsleep_next : forall secs le w1, logged w [req] w1 ->
      exists more,
        logged w more
          (io_bind (sleep secs)
             (fun _ => request_loop server self method url payload todo (attempt + 1) le) w1).2 /\
        attempts req (S todo) more).
    { intros secs le w1 H1. unfold io_bind, sleep.
      destruct (secs <? 0); simpl.
      - exists [req]. split; [exact H1 | repeat constructor].
      - destruct (IH (attempt + 1) le (with_log w1 (log w1 ++ [EvSleep secs])))
          as (m2 & Hm2 & Ha2).
        exists (req :: EvSleep secs :: m2). split; [| by constructor].
        apply (logged_trans _ _ _ [req] (EvSleep secs :: m2) H1).
        by apply (logged_trans _ _ _ [EvSleep secs] m2 (eq_refl _)). }
    assert (Hcaught : forall le w1, logged w [req] w1 ->
      exists more,
        logged w more
          (io_bind (backoff self attempt)
             (fun _ => request_loop server self method url payload todo (attempt + 1) le) w1).2 /\
        attempts req (S todo) more).
    { intros le w1 H1. unfold backoff.
      destruct (attempt <? retries self - 1); [by apply Hsleep_next |].
      unfold io_bind, io_ret.
      destruct (IH (attempt + 1) le w1) as (m2 & Hm2 & Ha2).
      exists (req :: m2). split; [| by constructor].
      exact (logged_trans _ _ _ [req] m2 H1 Hm2). }
    assert (Hstop : forall w1, logged w [req] w1 ->
      exists more, logged w more w1 /\ attempts req (S todo) more).
    { intros w1 H1. exists [req]. split; [exact H1 | repeat constructor]. }
    pose proof (session_request_logged server self method url payload w) as H1.
    cbn [request_loop].
    destruct (session_request server self method url payload w) as [o w1].
    simpl in H1.
    destruct o as [response| |e_text]; [| by apply Hcaught | by apply Hcaught].
    destruct (resp_status_code response =? 429).
    { destruct (resp_retry_after response);
        [by apply Hsleep_next | by apply Hsleep_next | by apply Hstop]. }
    destruct (resp_status_code response >=? 400).
    { destruct (resp_content response); [| by apply Hstop].
      destruct (resp_json response); [by apply Hcaught | by apply Hstop]. }
    destruct (resp_json response); [by apply Hcaught | by apply Hstop].
Qed.

(** X1: whatever the server does, [_request] only appends to the log, it
    sends at most [retries] requests, and every request it sends is the
    same one: the method, [endpoint + path], the payload and the client's
    timeout. *)
Theorem request_stays_within_budget method path payload w :
  let req := EvRequest method (endpoint self +:+ path) payload (timeout self) in
  exists more,
    (_request server self method path payload w).2 = with_log w (log w ++ more) /\
    (length (requests_of more) <= Z.to_nat (retries self))%nat /\
    Forall (fun e => is_request e = true -> e = req) more.
Proof.
  intros req. unfold _request.
  destruct (request_loop_attempts method (endpoint self +:+ path) payload
              (Z.to_nat (retries self)) 0 None w) as (more & Hl & Ha).
  exists more. split; [exact Hl |]. by apply attempts_requests.
Qed.

(** X2: with a retry budget of zero or less, [_request] sends nothing and
    raises the base error of its final [raise]. *)
Theorem request_without_budget method path payload w :
  retries self <= 0 ->
  _request server self method path payload w
  = (inl (TensalisError "Request failed after retries"), w).
Proof.
  intros H. unfold _request.
  replace (Z.to_nat (retries self)) with O by lia. reflexivity.
Qed.

(** X3: when the first answer is a response below 400 whose body decodes,
    [_request] returns the decoded body after that one request, without
    sleeping. *)
Theorem request_first_success method path payload w r data :
  let req := EvRequest method (endpoint self +:+ path) payload (timeout self) in
  0 < retries self ->
  server (log w ++ [req]) = Responded r ->
  resp_status_code r < 400 ->
  resp_json r = inr data ->
  _request server self method path payload w
  = (inr data, with_log w (log w ++ [req])).
Proof.
  intros req Hretries Hs Hcode Hjson. unfold _request.
  destruct (Z.to_nat (retries self)) as [|todo] eqn:En; [lia |].
  cbn [request_loop]. unfold session_request. fold req. rewrite Hs.
  destruct (Z.eqb_spec (resp_status_code r) 429) as [?|_]; [lia |].
  destruct (Z.geb_spec (resp_status_code r) 400) as [?|_]; [lia |].
  by rewrite Hjson.
Qed.

(** X4: when the first answer has a status of 400 or more other than 429,
    and its body is empty or decodes, [_request] raises [TensalisAPIError]
    at once: one request, no sleep, no retry.  The error carries the status
    code and the decoded body (or the empty dictionary), and its message is
    the body's ["error"] entry, or "Unknown error". *)
Theorem request_api_error_not_retried method path payload w r :
  let req := EvRequest method (endpoint self +:+ path) payload (timeout self) in
  let error_data :=
    if resp_content r then match resp_json r with inr d => d | inl _ => ∅ end else ∅ in
  0 < retries self ->
  server (log w ++ [req]) = Responded r ->
  400 <= resp_status_code r ->
  resp_status_code r <> 429 ->
  (resp_content r = true -> exists d, resp_json r = inr d) ->
  _request server self method path payload w
  = (inl (TensalisAPIError (dict_get error_data "error" (JStr "Unknown error"))
            (resp_status_code r) error_data),
     with_log w (log w ++ [req])).
Proof.
  intros req error_data Hretries Hs Hcode Hne Hbody. unfold _request.
  destruct (Z.to_nat (retries self)) as [|todo] eqn:En; [lia |].
  cbn [request_loop]. unfold session_request. fold req. rewrite Hs.
  destruct (Z.eqb_spec (resp_status_code r) 429) as [?|_]; [lia |].
  destruct (Z.geb_spec (resp_status_code r) 400) as [_|?]; [| lia].
  unfold error_data. destruct (resp_content r).
  - destruct (Hbody eq_refl) as (d & ->). reflexivity.
  - reflexivity.
Qed.

Lemma sleep_power attempt w :
  sleep (2 ^ attempt) w = (inr tt, with_log w (log w ++ [EvSleep (2 ^ attempt)])).
Proof.
  unfold sleep. pose proof (Z.pow_nonneg 2 attempt).
  destruct (Z.ltb_spec (2 ^ attempt) 0); [lia | reflexivity].
Qed.

Lemma failure_log_requests req retries todo attempt :
  is_request req = true ->
  length (requests_of (failure_log req retries todo attempt)) = todo.
Proof.
  intros Hreq. revert attempt. induction todo as [|todo IH]; intros attempt; [reflexivity |].
  unfold requests_of in *. simpl. rewrite Hreq. simpl.
  rewrite List.filter_app, length_app, IH.
  by destruct (attempt <? retries - 1).
Qed.

Lemma failure_log_sleeps req retries todo attempt :
  is_request req = true ->
  attempt + Z.of_nat todo = retries ->
  sleeps_of (failure_log req retries todo attempt)
  = (fun i => 2 ^ i) <$> seqZ attempt (Z.of_nat todo - 1).
Proof.
  intros Hreq. revert attempt. induction todo as [|todo IH]; intros attempt Hsum.
  - reflexivity.
  - assert (Hhead : sleeps_of [req] = []) by (by destruct req).
    cbn [failure_log]. unfold sleeps_of in *.
    change (req :: ?x) with ([req] ++ x). rewrite !omap_app, Hhead, IH by lia.
    simpl app.
    destruct (Z.ltb_spec attempt (retries - 1)) as [Hlt|Hge].
    + rewrite (seqZ_cons attempt) by lia.
      replace (Z.pred (Z.of_nat (S todo) - 1)) with (Z.of_nat todo - 1) by lia.
      replace (Z.succ attempt) with (attempt + 1) by lia. reflexivity.
    + replace todo with O by lia. reflexivity.
Qed.

Lemma request_loop_all_fail method url payload todo :
  (forall l, failure_error self (server l) <> None) ->
  forall attempt last_error w,
    attempt + Z.of_nat todo = retries self ->
    let req := EvRequest method url payload (timeout self) in
    let final := log w ++ failure_log req (retries self) todo attempt in
    exists e,
      request_loop server self method url payload todo attempt last_error w
        = (inl e, with_log w final) /\
      match todo with
      | O => e = match last_error with
                 | Some e0 => e0
                 | None => TensalisError "Request failed after retries"
                 end
      | S _ => failure_error self (server final) = Some e
      end.
Proof.
  intros Hsrv. induction todo as [|todo IH]; intros attempt last_error w Hsum req final.
  - eexists. split; [| reflexivity]. unfold final. simpl. by rewrite with_log_same.
  - cbn [request_loop]. unfold session_request. fold req.
    set (w1 := with_log w (log w ++ [req])).
    assert (Hcaught : forall e1,
      failure_error self (server (log w ++ [req])) = Some e1 ->
      exists e,
        io_bind (backoff self attempt)
          (fun _ => request_loop server self method url payload todo (attempt + 1) (Some e1)) w1
          = (inl e, with_log w final) /\
        failure_error self (server final) = Some e).
    { intros e1 He1. unfold backoff, final. cbn [failure_log].
      destruct (Z.ltb_spec attempt (retries self - 1)) as [Hlt|Hge].
      - unfold io_bind. rewrite sleep_power.
        destruct (IH (attempt + 1) (Some e1)
                    (with_log w1 (log w1 ++ [EvSleep (2 ^ attempt)]))) as (e & He & Hlast);
          [lia |].
        exists e. destruct todo as [|todo']; [lia |].
        unfold w1 in *. rewrite !with_log_log in *. unfold with_log in *. simpl in *.
        rewrite <- !app_assoc in *. simpl in *. by split.
      - assert (todo = O) by lia. subst todo. exists e1.
        unfold io_bind, io_ret. simpl. by split. }
    destruct (server (log w ++ [req])) as [response| |e_text] eqn:Hs.
    + exfalso. apply (Hsrv (log w ++ [req])). by rewrite Hs.
    + by apply Hcaught.
    + by apply Hcaught.
Qed.

(** X5: when every attempt ends in a timeout or another request failure
    and the retry budget is positive, [_request] makes exactly [retries]
    attempts, sleeps 1, 2, 4, ... seconds between them (2 ^ attempt, and
    nothing after the last one), and raises the error of the last failure:
    [TensalisTimeoutError] for a timeout, the base [TensalisError] with the
    failure's text otherwise. *)
Theorem request_failures_exhaust_budget method path payload w :
  let req := EvRequest method (endpoint self +:+ path) payload (timeout self) in
  let attempts_made := failure_log req (retries self) (Z.to_nat (retries self)) 0 in
  (forall l, failure_error self (server l) <> None) ->
  0 < retries self ->
  exists e,
    _request server self method path payload w = (inl e, with_log w (log w ++ attempts_made)) /\
    failure_error self (server (log w ++ attempts_made)) = Some e /\
    length (requests_of attempts_made) = Z.to_nat (retries self) /\
    sleeps_of attempts_made = (fun i => 2 ^ i) <$> seqZ 0 (retries self - 1).
Proof.
  intros req attempts_made Hsrv Hretries. unfold _request.
  destruct (request_loop_all_fail method (endpoint self +:+ path) payload
              (Z.to_nat (retries self)) Hsrv 0 None w) as (e & He & Hlast); [lia |].
  exists e. split; [exact He |].
  destruct (Z.to_nat (retries self)) as [|todo] eqn:En; [lia |].
  split; [exact Hlast |]. split.
  - unfold attempts_made. by apply failure_log_requests.
  - unfold attempts_made. rewrite (failure_log_sleeps req (retries self) (S todo) 0);
      [| done | lia].
    do 2 f_equal. lia.
Qed.

Lemma request_loop_error_classes method url payload todo :
  forall attempt last_error w e,
    (forall e0, last_error = Some e0 -> request_error e0) ->
    (request_loop server self method url payload todo attempt last_error w).1 = inl e ->
    request_error e.
Proof.
  induction todo as [|todo IH]; intros attempt last_error w e Hlast.
  - simpl. destruct last_error as [e0|]; intros [= <-]; [by apply Hlast | exact I].
  - assert (Hsleep_next : forall secs le w1,
      (forall e0, le = Some e0 -> request_error e0) ->
      (io_bind (sleep secs)
         (fun _ => request_loop server self method url payload todo (attempt + 1) le) w1).1
        = inl e -> request_error e).
    { intros secs le w1 Hle. unfold io_bind, sleep.
      destruct (secs <? 0); simpl; [by intros [= <-] | by apply IH]. }
    assert (Hcaught : forall e1 w1, request_error e1 ->
      (io_bind (backoff self attempt)
         (fun _ => request_loop server self method url payload todo (attempt + 1) (Some e1)) w1).1
        = inl e -> request_error e).
    { intros e1 w1 He1. unfold backoff.
      destruct (attempt <? retries self - 1).
      - apply Hsleep_next. by intros e0 [= <-].
      - unfold io_bind, io_ret. apply IH. by intros e0 [= <-]. }
    cbn [request_loop].
    destruct (session_request server self method url payload w) as [o w1].
    destruct o as [response| |e_text]; [| by apply Hcaught | by apply Hcaught].
    destruct (Z.eqb_spec (resp_status_code response) 429) as [H429|H429].
    { destruct (resp_retry_after response);
        [by apply Hsleep_next | by apply Hsleep_next | by intros [= <-]]. }
    destruct (Z.geb_spec (resp_status_code response) 400) as [H400|H400].
    { destruct (resp_content response); [| by intros [= <-]].
      destruct (resp_json response); [by apply Hcaught | by intros [= <-]]. }
    destruct (resp_json response); [by apply Hcaught | discriminate].
Qed.

Lemma request_error_expected (e : exn) : request_error e -> expected_error e.
Proof.
  intros He. split.
  - by destruct e.
  - intros message status_code response ->. exact He.
Qed.

(** X6: [_request] never raises [TensalisAuthenticationError],
    [TensalisRateLimitError], [TensalisValidationError] or
    [TensalisConnectionError], whatever the server answers (401 and 429
    included), and every [TensalisAPIError] it raises has a status code
    that is at least 400 and is not 429.  The same holds of [verify],
    [verify_batch], [health] and [usage]. *)
Theorem request_raises_only method path payload w e :
  ((_request server self method path payload w).1 = inl e -> expected_error e) /\
  (forall response context metadata,
     (verify server self response context metadata w).1 = inl e -> expected_error e) /\
  (forall items, (verify_batch server self items w).1 = inl e -> expected_error e) /\
  ((health server self w).1 = inl e -> expected_error e) /\
  ((usage server self w).1 = inl e -> expected_error e).
Proof.
  assert (Hreq : forall m p pl,
            (_request server self m p pl w).1 = inl e -> expected_error e).
  { intros m p pl H. apply request_error_expected. revert H.
    unfold _request. apply request_loop_error_classes. discriminate. }
  split; [apply Hreq |]. split; [| split; [| split; apply Hreq]].
  - intros response context metadata. unfold verify, io_bind.
    match goal with |- context [_request ?s ?c ?m ?p ?pl w] =>
      pose proof (Hreq m p pl) as H; destruct (_request s c m p pl w) as [[e'|d] w'] end;
      simpl in *; [| discriminate]. intros [= <-]. by apply H.
  - intros items. unfold verify_batch, io_bind.
    match goal with |- context [_request ?s ?c ?m ?p ?pl w] =>
      pose proof (Hreq m p pl) as H; destruct (_request s c m p pl w) as [[e'|d] w'] end;
      simpl in *; [| discriminate]. intros [= <-]. by apply H.
Qed.

(** X7: a 429 whose [Retry-After] header is not an integer, or is a
    negative one that [time.sleep] can convert (not below [- MAX_SLEEP]),
    ends [_request] at once with the built-in [ValueError] of [int()] or
    [time.sleep]: one request, no sleep, no retry, and not one of the SDK's
    exception classes. *)
Theorem request_bad_retry_after method path payload w r :
  let req := EvRequest method (endpoint self +:+ path) payload (timeout self) in
  0 < retries self ->
  server (log w ++ [req]) = Responded r ->
  resp_status_code r = 429 ->
  (exists t, resp_retry_after r = RetryAfterInvalid t) \/
  (exists n, resp_retry_after r = RetryAfterInt n /\ - MAX_SLEEP <= n < 0) ->
  exists message,
    _request server self method path payload w
    = (inl (ValueError message), with_log w (log w ++ [req])).
Proof.
  intros req Hretries Hs Hcode Hra. unfold _request.
  destruct (Z.to_nat (retries self)) as [|todo] eqn:En; [lia |].
  cbn [request_loop]. unfold session_request. fold req. rewrite Hs, Hcode.
  simpl (429 =? 429).
  destruct Hra as [(t & ->) | (n & -> & Hn)].
  - by eexists.
  - unfold io_bind, sleep. destruct (Z.ltb_spec n 0); [| lia]. by eexists.
Qed.

Lemma request_loop_rate_limited_after (N : nat) method url payload todo :
  (forall l, (N < length l)%nat -> rate_limited (server l)) ->
  forall attempt last_error w,
    (N <= length (log w))%nat ->
    exists w',
      request_loop server self method url payload todo attempt last_error w
      = (inl (match last_error with
              | Some e => e
              | None => TensalisError "Request failed after retries"
              end), w').
Proof.
  intros Hsrv. induction todo as [|todo IH]; intros attempt last_error w Hlen.
  - by exists w.
  - cbn [request_loop]. unfold session_request.
    destruct (Hsrv (log w ++ [EvRequest method url payload (timeout self)]))
      as (r & -> & Hcode & Hra); [rewrite length_app; simpl; lia |].
    rewrite Hcode. simpl (429 =? 429).
    set (w1 := with_log w (log w ++ [EvRequest method url payload (timeout self)])).
    assert (Hgo : forall secs, 0 <= secs ->
      exists w',
        io_bind (sleep secs)
          (fun _ => request_loop server self method url payload todo (attempt + 1) last_error) w1
        = (inl (match last_error with
                | Some e => e
                | None => TensalisError "Request failed after retries"
                end), w')).
    { intros secs Hsecs. unfold io_bind, sleep.
      destruct (Z.ltb_spec secs 0) as [?|_]; [lia |].
      apply IH. unfold w1. rewrite !with_log_log, !length_app. simpl. lia. }
    destruct Hra as [-> | (n & -> & Hn)]; apply Hgo; lia.
Qed.

(** X8: a 429 does not clear the failure recorded before it.  When the
    first attempt times out and every later attempt is rate limited, with a
    [Retry-After] that is absent or a length [time.sleep] accepts, the
    error raised after the budget is spent is the [TensalisTimeoutError] of
    the first attempt. *)
Theorem rate_limit_keeps_last_error method path payload w :
  let req := EvRequest method (endpoint self +:+ path) payload (timeout self) in
  0 < retries self ->
  server (log w ++ [req]) = Timeout ->
  (forall l, (S (length (log w)) < length l)%nat -> rate_limited (server l)) ->
  exists w',
    _request server self method path payload w
    = (inl (TensalisTimeoutError
              ("Request timed out after " +:+ pretty (timeout self) +:+ "s")), w').
Proof.
  intros req Hretries Hs Hlater. unfold _request.
  destruct (Z.to_nat (retries self)) as [|todo] eqn:En; [lia |].
  cbn [request_loop]. unfold session_request. fold req. rewrite Hs.
  unfold backoff, io_bind.
  destruct (0 <? retries self - 1).
  - rewrite sleep_power.
    apply (request_loop_rate_limited_after (S (length (log w))) _ _ _ todo Hlater).
    rewrite !with_log_log, !length_app. simpl. lia.
  - unfold io_ret.
    apply (request_loop_rate_limited_after (S (length (log w))) _ _ _ todo Hlater).
    rewrite !with_log_log, !length_app. simpl. lia.
Qed.

(** X9: a 429 is waited out and retried, not raised.  When the first
    answer is a 429 and the second succeeds, [_request] sleeps for the
    [Retry-After] seconds (a length [time.sleep] accepts: not negative, at
    most [MAX_SLEEP]), or 1 second without the header, sends the same
    request again and returns the decoded body; there is no exponential
    backoff after a 429. *)
Theorem rate_limit_waits_then_retries method path payload w r1 r2 secs data :
  let req := EvRequest method (endpoint self +:+ path) payload (timeout self) in
  2 <= retries self ->
  0 <= secs <= MAX_SLEEP ->
  server (log w ++ [req]) = Responded r1 ->
  resp_status_code r1 = 429 ->
  resp_retry_after r1 = RetryAfterInt secs \/
  (resp_retry_after r1 = RetryAfterAbsent /\ secs = 1) ->
  server (log w ++ [req; EvSleep secs; req]) = Responded r2 ->
  resp_status_code r2 < 400 ->
  resp_json r2 = inr data ->
  _request server self method path payload w
  = (inr data, with_log w (log w ++ [req; EvSleep secs; req])).
Proof.
  intros req Hretries Hsecs Hs1 Hc1 Hra Hs2 Hc2 Hj.
  unfold _request.
  destruct (Z.to_nat (retries self)) as [|[|todo]] eqn:En; [lia | lia |].
  cbn [request_loop]. unfold session_request at 1. fold req.
  rewrite Hs1, Hc1. simpl (429 =? 429).
  assert (Hgo :
    io_bind (sleep secs)
      (fun _ => request_loop server self method (endpoint self +:+ path) payload
                  (S todo) (0 + 1) None) (with_log w (log w ++ [req]))
    = (inr data, with_log w (log w ++ [req; EvSleep secs; req]))).
  { unfold io_bind, sleep. destruct (Z.ltb_spec secs 0) as [?|_]; [lia |].
    cbn [request_loop]. unfold session_request. fold req. rewrite !with_log_log.
    replace ((log w ++ [req]) ++ [EvSleep secs]) with (log w ++ [req; EvSleep secs])
      by (by rewrite <- app_assoc).
    replace ((log w ++ [req; EvSleep secs]) ++ [req]) with (log w ++ [req; EvSleep secs; req])
      by (by rewrite <- app_assoc).
    rewrite Hs2.
    destruct (Z.eqb_spec (resp_status_code r2) 429) as [?|_]; [lia |].
    destruct (Z.geb_spec (resp_status_code r2) 400) as [?|_]; [lia |].
    by rewrite Hj. }
  destruct Hra as [-> | [-> ->]]; exact Hgo.
Qed.

(** X10: [verify] sends the ["metadata"] key only for a non-empty
    metadata dictionary.  [None] and the empty dictionary give the same
    computation, whose requests carry exactly the keys ["response"] and
    ["reference_facts"]; a non-empty dictionary is sent as is, beside those
    two keys. *)
Theorem verify_metadata_only_when_nonempty response context w :
  let url := endpoint self +:+ "/verify" in
  verify server self response context (Some []) w
    = verify server self response context None w /\
  (exists more,
     logged w more (verify server self response context None w).2 /\
     Forall (fun e => is_request e = true ->
               exists d, e = EvRequest "POST" url (Some d) (timeout self) /\
                         d !! "metadata" = None /\
                         dom d = ({["response"; "reference_facts"]} : gset string)) more) /\
  (forall kv kvs, exists more,
     logged w more (verify server self response context (Some (kv :: kvs)) w).2 /\
     Forall (fun e => is_request e = true ->
               exists d, e = EvRequest "POST" url (Some d) (timeout self) /\
                         d !! "metadata" = Some (JObj (kv :: kvs)) /\
                         d !! "response" = Some (JStr response) /\
                         dom d = ({["response"; "reference_facts"; "metadata"]}
                                    : gset string)) more).
Proof.
  intros url. split; [reflexivity |]. split.
  - destruct (verify_logged server self response context None w) as (more & Hl & Hf & _).
    exists more. split; [exact Hl |].
    eapply Forall_impl; [exact Hf |]. intros e He Hreq. specialize (He Hreq).
    eexists. split; [exact He |]. split.
    + unfold verify_payload. by rewrite !lookup_insert_ne.
    + unfold verify_payload. rewrite !dom_insert_L, dom_empty_L. set_solver.
  - intros kv kvs.
    destruct (verify_logged server self response context (Some (kv :: kvs)) w)
      as (more & Hl & Hf & _).
    exists more. split; [exact Hl |].
    eapply Forall_impl; [exact Hf |]. intros e He Hreq. specialize (He Hreq).
    eexists. split; [exact He |]. split; [apply lookup_insert_eq |]. split.
    + rewrite lookup_insert_ne by discriminate. apply verify_payload_response.
    + unfold verify_payload. rewrite !dom_insert_L, dom_empty_L. set_solver.
Qed.

Lemma mapM_objects (objs : list (list (string * json))) :
  mapM (fun r => match r with
                 | JObj fields => Some (mkVerificationResult (object_dict fields))
                 | _ => None
                 end) (JObj <$> objs)
  = Some ((fun fields => mkVerificationResult (object_dict fields)) <$> objs).
Proof.
  induction objs as [|o objs IH]; [reflexivity |].
  rewrite fmap_cons. cbn [mapM]. rewrite IH. reflexivity.
Qed.

(** X11: [verify_batch] sends one POST of [{"items": items}] to
    [/verify/batch], also for an empty list of items.  When the first answer
    succeeds, the result comes from the answer's ["results"] entry alone: no
    entry gives the empty list, and an array of objects gives one
    [VerificationResult] per object, in order, whatever the number of items
    sent. *)
Theorem verify_batch_wraps_results items w r data :
  let req := EvRequest "POST" (endpoint self +:+ "/verify/batch")
               (Some {["items" := JList (JObj <$> items)]}) (timeout self) in
  0 < retries self ->
  server (log w ++ [req]) = Responded r ->
  resp_status_code r < 400 ->
  resp_json r = inr data ->
  verify_batch server self items w
    = (inr (batch_results data), with_log w (log w ++ [req])) /\
  (data !! "results" = None -> batch_results data = Some []) /\
  (forall objs, data !! "results" = Some (JList (JObj <$> objs)) ->
     batch_results data
     = Some ((fun fields => mkVerificationResult (object_dict fields)) <$> objs)).
Proof.
  intros req Hretries Hs Hcode Hjson. split; [| split].
  - unfold verify_batch, io_bind, _request.
    destruct (Z.to_nat (retries self)) as [|todo] eqn:En; [lia |].
    cbn [request_loop]. unfold session_request. fold req. rewrite Hs.
    destruct (Z.eqb_spec (resp_status_code r) 429) as [?|_]; [lia |].
    destruct (Z.geb_spec (resp_status_code r) 400) as [?|_]; [lia |].
    by rewrite Hjson.
  - intros Hnone. unfold batch_results, dict_get. by rewrite Hnone.
  - intros objs Hsome. unfold batch_results, dict_get. rewrite Hsome.
    apply mapM_objects.
Qed.

End TransportMore.

(** * Further properties of the verdict and of the constructor *)

(** X12: no verdict is both blocked and verified, and a verdict is neither
    exactly when its status is something other than the strings BLOCKED and
    VERIFIED: WARNING, any other string, or a status key that is present
    but null or not a string (only an absent key defaults to VERIFIED). *)
Theorem verdict_exclusive (r : VerificationResult) :
  is_blocked r && is_verified r = false /\
  (is_blocked r = false /\ is_verified r = false <->
   status r <> JStr "BLOCKED" /\ status r <> JStr "VERIFIED") /\
  (forall v, _data r !! "status" = Some v -> (forall s, v <> JStr s) ->
     is_blocked r = false /\ is_verified r = false).
Proof.
  split; [| split].
  - unfold is_blocked, is_verified. destruct (status r) as [| | | |s| |]; try reflexivity.
    simpl. destruct (String.eqb_spec s "BLOCKED") as [->|_]; reflexivity.
  - rewrite <- !not_true_iff_false. unfold is_blocked, is_verified.
    by rewrite !json_eq_str_true.
  - intros v Hv Hns. rewrite <- !not_true_iff_false. unfold is_blocked, is_verified.
    rewrite !json_eq_str_true, (status_present r v Hv).
    split; apply Hns.
Qed.

Lemma string_app_cons (c : ascii) (a b : string) :
  String c a +:+ b = String c (a +:+ b).
Proof. reflexivity. Qed.

Lemma string_snoc_nonempty (t : string) (c : ascii) : t +:+ String c "" <> "".
Proof. by destruct t. Qed.

Lemma rstrip_slash_cons (c : ascii) (rest : string) :
  rstrip_slash (String c rest)
  = match rstrip_slash rest with
    | EmptyString => if Ascii.eqb c "/" then EmptyString else String c EmptyString
    | kept => String c kept
    end.
Proof. reflexivity. Qed.

(** [rstrip("/")]: the result is the argument without its trailing
    slashes, it does not end in a slash, and stripping again changes
    nothing. *)
Lemma rstrip_slash_props (s : string) :
  (exists n, s = rstrip_slash s +:+ slashes n) /\
  (forall t, rstrip_slash s <> t +:+ "/") /\
  rstrip_slash (rstrip_slash s) = rstrip_slash s.
Proof.
  induction s as [|c rest (Hsplit & Hend & Hidem)].
  - split; [by exists O |]. split; [| reflexivity].
    intros t H. symmetry in H. by apply string_snoc_nonempty in H.
  - destruct Hsplit as (n & Hn). rewrite rstrip_slash_cons.
    destruct (rstrip_slash rest) as [|k kept] eqn:Er.
    + destruct (Ascii.eqb_spec c "/") as [->|Hc].
      * split; [exists (S n); by rewrite Hn |]. split; [| reflexivity].
        intros t H. symmetry in H. by apply string_snoc_nonempty in H.
      * split; [exists n; by rewrite Hn |]. split.
        -- intros [|c' t] H; [by injection H | ].
           rewrite string_app_cons in H. injection H as _ H.
           symmetry in H. by apply string_snoc_nonempty in H.
        -- rewrite rstrip_slash_cons. simpl (rstrip_slash "").
           destruct (Ascii.eqb_spec c "/"); [done | reflexivity].
    + split; [exists n; by rewrite Hn |]. split.
      * intros [|c' t] H; [discriminate H |].
        rewrite string_app_cons in H. injection H as _ H. by apply (Hend t).
      * rewrite rstrip_slash_cons, Hidem. reflexivity.
Qed.

(** X13: the constructor refuses an empty API key with the base
    [TensalisError] and accepts every other key; the client it builds keeps
    the key, the timeout, the retry budget and the mode, has an endpoint
    that is the given one without its trailing slashes and does not end in
    a slash, so that [endpoint + path] has no doubled slash at the joint,
    is unchanged when built again from its own endpoint, and sends the key
    as a bearer token. *)
Theorem init_spec (key url : string) (t n : Z) (m : string) :
  (key = "" -> init key url t n m = inl (TensalisError "API key is required")) /\
  (key <> "" ->
   exists c, init key url t n m = inr c /\
     api_key c = key /\ timeout c = t /\ retries c = n /\ mode c = m /\
     (exists k, url = endpoint c +:+ slashes k) /\
     (forall p, endpoint c <> p +:+ "/") /\
     init key (endpoint c) t n m = inr c /\
     session_headers c !! "Authorization" = Some ("Bearer " +:+ key)).
Proof.
  split.
  - by intros ->.
  - intros Hkey. unfold init.
    destruct (String.eqb_spec key "") as [?|_]; [done |].
    eexists. split; [reflexivity |]. simpl.
    destruct (rstrip_slash_props url) as (Hsplit & Hend & Hidem).
    rewrite Hidem. by repeat split.
Qed.

(** * Further properties of the streaming generator *)

Section StreamingMore.

Context (server : list event -> outcome) (self : TensalisClient).

Local Abbreviation for_loop := (for_loop server self).
Local Abbreviation next := (next server self).
Local Abbreviation advance := (advance server self).
Local Abbreviation collect := (collect server self).
Local Abbreviation verify := (verify server self).
Local Abbreviation loop_step := (loop_step server self).

Lemma next_stop_inv g w g' w' :
  next g w = (StopIteration, g', w') ->
  w' = w /\ (resume_locals g = None \/ chunks w = []).
Proof.
  unfold next. destruct (resume_locals g) as [l|]; [| intros [= _ <-]; by split; [| left]].
  intros H. pose proof (for_loop_step server self l w) as Hs. rewrite H in Hs.
  inversion Hs; subst. split; [reflexivity | by right].
Qed.

Lemma next_raise_inv g w e g' w' :
  next g w = (Raise e, g', w') ->
  exists chunk, chunks w = chunk :: chunks w'.
Proof.
  unfold next. destruct (resume_locals g) as [l|]; [| discriminate].
  intros H. pose proof (for_loop_step server self l w) as Hs. rewrite H in Hs.
  inversion Hs; subst. exists chunk.
  destruct (verify_world server self (accumulated l +:+ chunk) (CtxList (context l)) None
              (with_chunks w rest)) as (more & Hm).
  match goal with Hv : verify _ _ _ _ = _ |- _ => rewrite Hv in Hm end.
  simpl in Hm. rewrite (logged_chunks _ _ _ Hm). simpl. congruence.
Qed.

Lemma next_yield_text g w u g' w' :
  next g w = (Yield u, g', w') ->
  chunks w = text u :: chunks w' /\
  (is_terminal u = false -> resume_locals g' <> None).
Proof.
  intros H. apply next_yield_inv in H.
  destruct H as (l & chunk & rest & _ & Hc & Hc' & [(-> & -> & _) | (r & -> & -> & _)]).
  - split; [by rewrite Hc, Hc' | done].
  - split; [by rewrite Hc, Hc' |].
    rewrite checked_unit_terminal. simpl. by intros ->.
Qed.

(** X14: the generator passes the chunks through unchanged and in order.
    When a full consumption ends normally, the texts of the units are
    exactly the chunks pulled from the source, and unless a terminal unit
    stopped it the source is exhausted, so the texts are the whole source.
    When it ends with an exception of [verify], the chunk that triggered the
    check has been pulled but is in no unit. *)
Theorem collect_passes_chunks_through fuel g w us e w' :
  collect fuel g w = Some (us, e, w') ->
  match e with
  | Exhausted => chunks w = (text <$> us) ++ chunks w'
  | Raised _ => exists lost, chunks w = (text <$> us) ++ lost :: chunks w'
  end /\
  (e = Exhausted -> Forall (fun u => is_terminal u = false) us ->
   resume_locals g <> None -> chunks w' = [] /\ text <$> us = chunks w).
Proof.
  revert g w us e w'. induction fuel as [|fuel IH]; intros g w us e w'; [discriminate |].
  cbn [collect]. destruct (next g w) as [[s g1] w1] eqn:En.
  destruct s as [u| |e1].
  - destruct (collect fuel g1 w1) as [[[us1 e1] w2]|] eqn:Ec; [| discriminate].
    intros [= <- <- <-]. destruct (IH _ _ _ _ _ Ec) as [Hshape Hall].
    destruct (next_yield_text _ _ _ _ _ En) as [Hc Hres]. split.
    + destruct e1 as [|e1].
      * by rewrite Hc, Hshape.
      * destruct Hshape as (lost & Hl). exists lost. by rewrite Hc, Hl.
    + intros -> Hnt _. inversion Hnt as [|? ? Hu Hrest]; subst.
      destruct (Hall eq_refl Hrest (Hres Hu)) as [Hw2 Htexts].
      split; [exact Hw2 |]. by rewrite Hc, fmap_cons, Htexts.
  - intros [= <- <- <-]. destruct (next_stop_inv _ _ _ _ En) as [-> Hwhy].
    split; [reflexivity |]. intros _ _ Hres.
    destruct Hwhy as [Hnone | Hempty]; [done | by rewrite Hempty].
  - intros [= <- <- <-]. split; [| discriminate].
    destruct (next_raise_inv _ _ _ _ _ En) as (chunk & Hc). by exists chunk.
Qed.

Lemma next_always_checking k g w s g' w' :
  k <= 0 ->
  always_checking k g ->
  next g w = (s, g', w') ->
  always_checking k g' /\
  (forall u, s = Yield u -> exists r, u = checked_unit (text u) r).
Proof.
  intros Hk Hg. unfold next.
  destruct (resume_locals g) as [l|] eqn:Er; [| by intros [= <- <- <-]].
  assert (Hl : check_interval l = k /\ token_count l = 0).
  { destruct g as [c k'|l0 r| |]; simpl in Er, Hg; try done.
    - injection Er as <-. by split.
    - destruct (is_blocked r); [discriminate |]. injection Er as <-. by split. }
  destruct Hl as [Hint Htc].
  intros H. pose proof (for_loop_step server self l w) as Hs. rewrite H in Hs.
  inversion Hs; subst; try (split; [done | by intros u [=]]).
  - pose proof (token_len_nonneg chunk). lia.
  - split; [done |]. intros u [= <-]. by exists r.
Qed.

(** X15: with a [check_interval] of zero or less, every chunk is sent for
    verification, an empty one included: the generator is never suspended
    in the [else] branch and every unit it yields comes from the checked
    branch. *)
Theorem nonpositive_interval_checks_every_chunk n ctx k w sigs g w' :
  k <= 0 ->
  advance n (verify_stream ctx k) w = (sigs, g, w') ->
  (forall l, g <> AtYieldPending l) /\
  (forall u, In (Yield u) sigs -> exists r, u = checked_unit (text u) r).
Proof.
  intros Hk.
  assert (Hgen : forall m g0 w0 sigs0 g1 w1,
            always_checking k g0 ->
            advance m g0 w0 = (sigs0, g1, w1) ->
            always_checking k g1 /\
            (forall u, In (Yield u) sigs0 -> exists r, u = checked_unit (text u) r)).
  { induction m as [|m IH]; intros g0 w0 sigs0 g1 w1 Hg0.
    - intros [= <- <- <-]. by split.
    - cbn [advance]. destruct (next g0 w0) as [[s ga] wa] eqn:En.
      destruct (advance m ga wa) as [[ss gb] wb] eqn:Ea.
      intros [= <- <- <-].
      destruct (next_always_checking k _ _ _ _ _ Hk Hg0 En) as [Hga Hs].
      destruct (IH _ _ _ _ _ Hga Ea) as [Hgb Hss].
      split; [exact Hgb |]. intros u [Hu | Hu]; [by apply Hs | by apply Hss]. }
  intros Ha. destruct (Hgen n (verify_stream ctx k) w sigs g w' eq_refl Ha) as [Hg Hsigs].
  split; [| exact Hsigs]. intros l ->. exact Hg.
Qed.

End StreamingMore.

(** * The cost and the end of a stream *)

Section StreamingCost.

Context (server : list event -> outcome) (self : TensalisClient).

Local Abbreviation for_loop := (for_loop server self).
Local Abbreviation next := (next server self).
Local Abbreviation advance := (advance server self).
Local Abbreviation collect := (collect server self).
Local Abbreviation verify := (verify server self).

Lemma verify_request_count response context metadata w :
  exists more,
    logged w more (verify response context metadata w).2 /\
    (length (requests_of more) <= Z.to_nat (retries self))%nat.
Proof.
  unfold verify, _request, io_bind.
  match goal with |- context [request_loop ?s ?c ?m ?u ?p ?t ?a ?le w] =>
    destruct (request_loop_attempts s c m u p t a le w) as (more & Hl & Ha);
    destruct (request_loop s c m u p t a le w) as [[e|d] w1] end;
    simpl in *; exists more; (split; [exact Hl |]);
    (eapply attempts_requests; [| exact Ha]); reflexivity.
Qed.

Lemma requests_of_app (a b : list event) :
  requests_of (a ++ b) = requests_of a ++ requests_of b.
Proof. unfold requests_of. apply List.filter_app. Qed.

Lemma collect_request_cost fuel :
  forall g l w us e w',
    resume_locals g = Some l ->
    0 < check_interval l ->
    0 <= token_count l ->
    collect fuel g w = Some (us, e, w') ->
    exists more,
      log w' = log w ++ more /\
      Z.of_nat (length (requests_of more)) * check_interval l
      <= Z.of_nat (Z.to_nat (retries self)) * (token_count l + total_tokens (chunks w)).
Proof.
  induction fuel as [|fuel IH]; intros g l w us e w' Hl Hk Htc; [discriminate |].
  cbn [collect]. unfold next. rewrite Hl.
  destruct (chunks w) as [|chunk rest] eqn:Hc.
  - unfold for_loop. rewrite Hc. intros [= <- <- <-]. exists [].
    split; [by rewrite app_nil_r |]. simpl. nia.
  - pose proof (total_tokens_nonneg rest) as Hrest.
    pose proof (token_len_nonneg chunk) as Hlen.
    cbn [total_tokens foldr]. fold (total_tokens rest).
    destruct (Z.lt_ge_cases (token_count l + token_len chunk) (check_interval l))
      as [Hlt|Hge].
    + rewrite (for_loop_pending server self l w chunk rest Hc Hlt).
      destruct (collect fuel (AtYieldPending (consume_chunk l chunk)) (with_chunks w rest))
        as [[[us1 e1] w2]|] eqn:Ec; [| discriminate].
      intros [= <- <- <-].
      destruct (IH (AtYieldPending (consume_chunk l chunk)) (consume_chunk l chunk)
                  (with_chunks w rest) us1 e1 w2 eq_refl Hk ltac:(simpl; lia) Ec)
        as (more & Hw & Hcost).
      exists more. split; [exact Hw |]. simpl in Hcost. lia.
    + destruct (verify_request_count (accumulated l +:+ chunk) (CtxList (context l)) None
                  (with_chunks w rest)) as (more & Hm & Hn).
      destruct (verify (accumulated l +:+ chunk) (CtxList (context l)) None
                  (with_chunks w rest)) as [[e1|r] w1] eqn:Hv; simpl in Hm.
      * rewrite (for_loop_raised server self l w chunk rest e1 w1 Hc Hge Hv).
        intros [= <- <- <-]. exists more. split; [by rewrite Hm |]. nia.
      * rewrite (for_loop_checked server self l w chunk rest r w1 Hc Hge Hv).
        assert (Hlog1 : log w1 = log w ++ more) by (by rewrite Hm).
        assert (Hchunks1 : chunks w1 = rest) by (by rewrite Hm).
        destruct (collect fuel (AtYieldChecked (consume_chunk l chunk) r) w1)
          as [[[us1 e1] w2]|] eqn:Ec; [| discriminate].
        intros [= <- <- <-].
        destruct fuel as [|fuel']; [discriminate |].
        destruct (is_blocked r) eqn:Hb.
        -- cbn [collect] in Ec. unfold next in Ec. simpl in Ec. rewrite Hb in Ec.
           injection Ec as <- <- <-. exists more. split; [exact Hlog1 |]. nia.
        -- destruct (IH (AtYieldChecked (consume_chunk l chunk) r)
                       {| context := context l; check_interval := check_interval l;
                          accumulated := accumulated l +:+ chunk; token_count := 0 |}
                       w1 us1 e1 w2) as (more2 & Hw2 & Hcost);
             [simpl; by rewrite Hb | done | simpl; lia | exact Ec |].
           exists (more ++ more2). split.
           ++ by rewrite Hw2, Hlog1, app_assoc.
           ++ rewrite requests_of_app, length_app, Nat2Z.inj_add.
              rewrite Hchunks1 in Hcost. cbn [check_interval token_count] in Hcost. nia.
Qed.

(** X20: what a stream costs.  With a positive [check_interval], the
    requests sent while a stream is consumed to its end, times the
    interval, are at most the retry budget times the tokens of the source:
    every check uses up [check_interval] tokens of the counter and sends at
    most [retries] requests.  A source with fewer tokens than the interval
    costs nothing. *)
Theorem stream_request_cost fuel ctx k w us e w' :
  0 < k ->
  collect fuel (verify_stream ctx k) w = Some (us, e, w') ->
  exists more,
    log w' = log w ++ more /\
    Z.of_nat (length (requests_of more)) * k
    <= Z.of_nat (Z.to_nat (retries self)) * total_tokens (chunks w).
Proof.
  intros Hk Hc.
  destruct (collect_request_cost fuel (verify_stream ctx k)
              {| context := normalize_context ctx; check_interval := k;
                 accumulated := ""; token_count := 0 |} w us e w' eq_refl Hk
              ltac:(simpl; lia) Hc) as (more & Hw & Hcost).
  exists more. split; [exact Hw |]. simpl in Hcost. lia.
Qed.

Lemma collect_more_fuel fuel :
  forall g w result extra,
    collect fuel g w = Some result ->
    collect (fuel + extra) g w = Some result.
Proof.
  induction fuel as [|fuel IH]; intros g w result extra; [discriminate |].
  cbn [collect Nat.add]. destruct (next g w) as [[s g1] w1].
  destruct s as [u| |e1]; try done.
  destruct (collect fuel g1 w1) as [[[us e1] w2]|] eqn:Ec; [| discriminate].
  intros [= <-]. by rewrite (IH _ _ _ extra Ec).
Qed.

(** X21: consuming the generator always ends, after at most one call of
    [next] per chunk left in the source and one more; calling longer changes
    nothing. *)
Theorem collect_ends_within_source fuel g w :
  (length (chunks w) < fuel)%nat ->
  exists us e w',
    collect fuel g w = Some (us, e, w') /\
    (length us <= length (chunks w))%nat /\
    forall extra, collect (fuel + extra) g w = Some (us, e, w').
Proof.
  intros Hfuel.
  assert (Hrun : forall n g0 w0, (length (chunks w0) < n)%nat ->
            exists us e w', collect n g0 w0 = Some (us, e, w') /\
                            (length us <= length (chunks w0))%nat).
  { induction n as [|n IH]; intros g0 w0 Hlen; [lia |].
    cbn [collect]. destruct (next g0 w0) as [[s g1] w1] eqn:En.
    destruct s as [u| |e1].
    - apply next_yield_inv in En.
      destruct En as (l & chunk & rest & _ & Hc & Hc' & _).
      destruct (IH g1 w1) as (us & e & w' & -> & Hus);
        [rewrite Hc', Hc in *; simpl in Hlen; lia |].
      exists (u :: us), e, w'. split; [reflexivity |].
      rewrite Hc, Hc' in *. simpl. lia.
    - exists [], Exhausted, w1. split; [reflexivity | simpl; lia].
    - exists [], (Raised e1), w1. split; [reflexivity | simpl; lia]. }
  destruct (Hrun fuel g w Hfuel) as (us & e & w' & Hc & Hus).
  exists us, e, w'. split; [exact Hc |]. split; [exact Hus |].
  intros extra. by apply collect_more_fuel.
Qed.

(** X22: an exception of [verify] inside the stream reaches the caller of
    [next] unchanged and finishes the generator: the call that raises has
    pulled one chunk and yielded nothing, the exception is the one the
    check on the text accumulated with that chunk raised, every later call
    gives [StopIteration], and the check is not attempted again. *)
Theorem stream_error_is_final g w e g' w' :
  next g w = (Raise e, g', w') ->
  g' = Finished /\
  (exists l chunk,
     resume_locals g = Some l /\ chunks w = chunk :: chunks w' /\
     (verify (accumulated l +:+ chunk) (CtxList (context l)) None
        (with_chunks w (chunks w'))).1 = inl e) /\
  (forall m, advance m g' w' = (repeat StopIteration m, g', w')).
Proof.
  unfold next. destruct (resume_locals g) as [l|] eqn:Er; [| discriminate].
  intros H. pose proof (for_loop_step server self l w) as Hs. rewrite H in Hs.
  inversion Hs as [| |chunk rest e1 w1' Hc Hge Hv|]; subst.
  assert (Hw' : chunks w' = rest).
  { destruct (verify_request_count (accumulated l +:+ chunk) (CtxList (context l)) None
                (with_chunks w rest)) as (more & Hm & _).
    rewrite Hv in Hm. simpl in Hm. by rewrite (logged_chunks _ _ _ Hm). }
  split; [reflexivity |]. split.
  - exists l, chunk. rewrite Hw', Hc. repeat split. by rewrite Hv.
  - intros m. by rewrite (advance_not_resumable server self m Finished w' eq_refl); destruct m.
Qed.

End StreamingCost.

(** * Tokens *)

Lemma eqb_empty_false (s : string) : s <> "" -> String.eqb s "" = false.
Proof. intros H. by destruct (String.eqb_spec s ""). Qed.

Lemma snoc_nonempty (cur : string) (c : ascii) : cur +:+ String c "" <> "".
Proof. by destruct cur. Qed.

Lemma split_from_cons (cur : string) (c : ascii) (rest : string) :
  split_from cur (String c rest)
  = if py_isspace c then
      if String.eqb cur "" then split_from "" rest else cur :: split_from "" rest
    else split_from (cur +:+ String c "") rest.
Proof. reflexivity. Qed.

(** The number of tokens read from a non-empty run in progress does not
    depend on the run. *)
Lemma split_from_length (s : string) :
  forall cur cur', cur <> "" -> cur' <> "" ->
    length (split_from cur s) = length (split_from cur' s).
Proof.
  induction s as [|c rest IH]; intros cur cur' Hc Hc'.
  - simpl. by rewrite !eqb_empty_false.
  - rewrite !split_from_cons. destruct (py_isspace c).
    + by rewrite !eqb_empty_false.
    + apply IH; apply snoc_nonempty.
Qed.

Lemma split_from_length_le (cur : string) (s : string) :
  (length (split_from cur s) <= 1 + length (split_from "" s))%nat.
Proof.
  destruct (String.eqb_spec cur "") as [->|Hcur]; [lia |].
  destruct s as [|c rest].
  - simpl. rewrite eqb_empty_false by done. simpl. lia.
  - rewrite !split_from_cons. destruct (py_isspace c).
    + rewrite eqb_empty_false by done. simpl. lia.
    + rewrite (split_from_length rest (cur +:+ String c "") ("" +:+ String c ""));
        [lia | apply snoc_nonempty | apply snoc_nonempty].
Qed.

Lemma split_from_app_le (a b : string) :
  forall cur,
    (length (split_from cur (a +:+ b))
     <= length (split_from cur a) + length (split_from "" b))%nat.
Proof.
  induction a as [|c a IH]; intros cur.
  - change ("" +:+ b) with b. simpl (split_from cur "").
    destruct (String.eqb_spec cur "") as [->|Hcur]; [simpl; lia |].
    pose proof (split_from_length_le cur b). simpl. lia.
  - rewrite string_app_cons, !split_from_cons. destruct (py_isspace c).
    + destruct (String.eqb cur ""); [apply IH |].
      simpl. specialize (IH ""). lia.
    + apply IH.
Qed.

Lemma split_from_break (a b : string) (c : ascii) :
  py_isspace c = true ->
  forall cur,
    split_from cur (a +:+ String c b)
    = split_from cur (a +:+ String c "") ++ split_from "" b.
Proof.
  intros Hc. induction a as [|x a IH]; intros cur.
  - change ("" +:+ String c b) with (String c b).
    change ("" +:+ String c "") with (String c "").
    rewrite !split_from_cons, Hc. simpl (split_from "" "").
    by destruct (String.eqb cur "").
  - rewrite !string_app_cons, !split_from_cons. destruct (py_isspace x).
    + destruct (String.eqb cur ""); [apply IH |]. simpl. by rewrite IH.
    + apply IH.
Qed.

(** X16: the counter of [verify_stream] adds up the tokens of each chunk,
    which is never less than the tokens of the accumulated text: a word
    split across two chunks is counted twice.  The two agree when the first
    of two pieces ends in whitespace. *)
Theorem token_count_over_approximates :
  (forall a b, token_len (a +:+ b) <= token_len a + token_len b) /\
  (forall cs, token_len (joined cs) <= total_tokens cs) /\
  (forall a c b, py_isspace c = true ->
     token_len (a +:+ String c b) = token_len (a +:+ String c "") + token_len b).
Proof.
  assert (Hab : forall a b, token_len (a +:+ b) <= token_len a + token_len b).
  { intros a b. unfold token_len, split.
    pose proof (split_from_app_le a b ""). lia. }
  split; [exact Hab |]. split.
  - induction cs as [|c cs IH]; [reflexivity |].
    change (joined (c :: cs)) with (c +:+ joined cs). simpl total_tokens.
    specialize (Hab c (joined cs)). lia.
  - intros a c b Hc. unfold token_len, split.
    rewrite (split_from_break a b c Hc), length_app. lia.
Qed.

Lemma spaceless_snoc (cur : string) (c : ascii) :
  spaceless cur = true -> py_isspace c = false ->
  spaceless (cur +:+ String c "") = true.
Proof.
  intros Hcur Hc. induction cur as [|x cur IH].
  - change ("" +:+ String c "") with (String c ""). simpl. by rewrite Hc.
  - simpl in Hcur. apply andb_true_iff in Hcur as [Hx Hcur].
    change (spaceless (String x (cur +:+ String c "")) = true).
    simpl. by rewrite Hx, IH.
Qed.

(** The words that [split] returns are non-empty and free of whitespace. *)
Lemma split_from_words (s : string) :
  forall cur, spaceless cur = true ->
    Forall (fun word => word <> "" /\ spaceless word = true) (split_from cur s).
Proof.
  induction s as [|c rest IH]; intros cur Hcur.
  - simpl. destruct (String.eqb_spec cur ""); [constructor |].
    by repeat constructor.
  - rewrite split_from_cons. destruct (py_isspace c) eqn:Hc.
    + destruct (String.eqb_spec cur ""); [by apply IH |].
      constructor; [done | by apply IH].
    + apply IH. by apply spaceless_snoc.
Qed.

Lemma split_from_spaceless (word : string) :
  spaceless word = true ->
  forall cur rest, split_from cur (word +:+ rest) = split_from (cur +:+ word) rest.
Proof.
  induction word as [|c word IH]; intros Hw cur rest.
  - change ("" +:+ rest) with rest. by rewrite string_app_nil_r.
  - simpl in Hw. apply andb_true_iff in Hw as [Hc Hw].
    apply negb_true_iff in Hc.
    rewrite string_app_cons, split_from_cons, Hc, (IH Hw).
    f_equal. change (String c word) with (String c "" +:+ word).
    by rewrite string_app_assoc.
Qed.

Lemma split_word_space (word rest : string) :
  word <> "" -> spaceless word = true ->
  split (word +:+ " " +:+ rest) = word :: split rest.
Proof.
  intros Hne Hw. unfold split.
  rewrite (split_from_spaceless word Hw "" (" " +:+ rest)).
  change ("" +:+ word) with word.
  change (" " +:+ rest) with (String " " rest).
  rewrite split_from_cons. change (py_isspace " ") with true. cbn iota.
  by rewrite eqb_empty_false.
Qed.

Lemma split_joined_words (words : list string) :
  Forall (fun word => word <> "" /\ spaceless word = true) words ->
  split (joined ((fun word => word +:+ " ") <$> words)) = words.
Proof.
  induction 1 as [|word words [Hne Hw] _ IH]; [reflexivity |].
  rewrite fmap_cons.
  change (joined ((word +:+ " ") :: ?tl)) with ((word +:+ " ") +:+ joined tl).
  rewrite string_app_assoc, split_word_space by done. by rewrite IH.
Qed.

(** X17: the chunks of the example's word stream, [word + " "] for each
    word of [response.split()], are single-token chunks; their token counts
    add up to the token count of the response; and splitting their
    concatenation gives back the words of the response. *)
Theorem word_stream_single_tokens (response : string) :
  Forall single_token (word_stream response) /\
  total_tokens (word_stream response) = token_len response /\
  split (joined (word_stream response)) = split response.
Proof.
  pose proof (split_from_words response "" eq_refl) as Hwords.
  fold (split response) in Hwords. unfold word_stream.
  assert (Hsingle : Forall single_token ((fun word => word +:+ " ") <$> split response)).
  { apply Forall_fmap. eapply Forall_impl; [exact Hwords |].
    intros word [Hne Hw]. unfold compose, single_token, token_len.
    pose proof (split_word_space word "" Hne Hw) as H.
    change (word +:+ " " +:+ "") with (word +:+ " ") in H.
    by rewrite H. }
  split; [exact Hsingle |]. split.
  - unfold token_len. clear Hwords. revert Hsingle.
    generalize (split response). intros words.
    induction words as [|word words IH]; intros Hsingle; [reflexivity |].
    rewrite fmap_cons in *. inversion Hsingle as [|? ? H1 Hrest]; subst.
    simpl total_tokens. unfold single_token in H1. rewrite H1, (IH Hrest).
    simpl length. lia.
  - by apply split_joined_words.
Qed.

(** * The streaming example *)

Section Example.

Context (server : list event -> outcome) (self : TensalisClient).

Local Abbreviation next := (next server self).
Local Abbreviation verify := (verify server self).
Local Abbreviation stream_consume := (stream_consume server self).
Local Abbreviation stream_with_verification := (stream_with_verification server self).

Local Abbreviation stream_outcome := (stream_outcome server self).

Lemma stream_outcome_shift on_block ctx chunk rest acc out res w' out' :
  stream_outcome on_block ctx rest (acc ++ [chunk]) (out ++ [chunk]) res w' out' ->
  stream_outcome on_block ctx (chunk :: rest) acc out res w' out'.
Proof.
  unfold stream_outcome. destruct res as [e|s].
  - intros (n & lost & wv & Hn & Hwv & Hv & Hout & Hc). exists (S n), lost, wv.
    simpl. rewrite <- !app_assoc in *. by repeat split.
  - intros [(Hs & Hout & Hc) | (n & blocked & r & wv & Hn & Hwv & Hv & Hb & Hs & Hout & Hc)].
    + left. rewrite <- !app_assoc in *. by repeat split.
    + right. exists (S n), blocked, r, wv. simpl. rewrite <- !app_assoc in *.
      by repeat split.
Qed.

Lemma stream_consume_outcome on_block ctx fuel :
  forall g l acc w out,
    resume_locals g = Some l ->
    context l = ctx ->
    accumulated l = joined acc ->
    (length (chunks w) < fuel)%nat ->
    exists res w' out',
      stream_consume on_block fuel g acc w out = Some (res, w', out') /\
      stream_outcome on_block ctx (chunks w) acc out res w' out'.
Proof.
  induction fuel as [|fuel IH]; intros g l acc w out Er Hctx Hacc Hfuel; [lia |].
  cbn [stream_consume]. unfold next. rewrite Er.
  pose proof (for_loop_step server self l w) as Hs.
  destruct (for_loop server self l w) as [[s g1] w1] eqn:Ef.
  inversion Hs as [Hc|chunk rest Hc Hlt|chunk rest e w1' Hc Hge Hv|chunk rest r w1' Hc Hge Hv];
    subst.
  - eexists _, _, _. split; [reflexivity |]. rewrite Hc. left.
    by rewrite !app_nil_r.
  - change (json_eq_str (unit_status (pending_unit chunk)) "BLOCKED") with false.
    cbn iota. change (text (pending_unit chunk)) with chunk.
    destruct (IH (AtYieldPending (consume_chunk l chunk)) (consume_chunk l chunk)
                (acc ++ [chunk]) (with_chunks w rest) (out ++ [chunk]))
      as (res & w' & out' & -> & Hout);
      [done | done | simpl; by rewrite Hacc, joined_snoc
      | rewrite Hc in Hfuel; simpl in *; lia |].
    exists res, w', out'. split; [reflexivity |].
    rewrite Hc. by apply stream_outcome_shift.
  - eexists _, _, _. split; [reflexivity |]. rewrite Hc.
    exists O, chunk, (with_chunks w rest). simpl. rewrite app_nil_r, take_0, drop_0.
    rewrite joined_snoc, <- Hacc. repeat split; [exact Hv |].
    destruct (verify_world server self (accumulated l +:+ chunk) (CtxList (context l)) None
                (with_chunks w rest)) as (more & Hm).
    rewrite Hv in Hm. simpl in Hm. by rewrite (logged_chunks _ _ _ Hm).
  - assert (Hw1 : chunks w1 = rest).
    { destruct (verify_world server self (accumulated l +:+ chunk) (CtxList (context l)) None
                  (with_chunks w rest)) as (more & Hm).
      rewrite Hv in Hm. simpl in Hm. by rewrite (logged_chunks _ _ _ Hm). }
    change (unit_status (checked_unit chunk r)) with (status r).
    change (json_eq_str (status r) "BLOCKED") with (is_blocked r).
    change (text (checked_unit chunk r)) with chunk.
    destruct (is_blocked r) eqn:Hb.
    + eexists _, _, _. split; [reflexivity |]. rewrite Hc.
      right. exists O, chunk, r, (with_chunks w rest). simpl.
      rewrite !app_nil_r, take_0, drop_0, joined_snoc, <- Hacc.
      repeat split; [exact Hv | exact Hb | | exact Hw1].
      unfold after_block, checked_unit. simpl. by rewrite Hb.
    + destruct (IH (AtYieldChecked (consume_chunk l chunk) r)
                  {| context := context l; check_interval := check_interval l;
                     accumulated := accumulated l +:+ chunk; token_count := 0 |}
                  (acc ++ [chunk]) w1 (out ++ [chunk]))
        as (res & w' & out' & -> & Hout);
        [simpl; by rewrite Hb | done | simpl; by rewrite Hacc, joined_snoc
        | rewrite Hw1; rewrite Hc in Hfuel; simpl in *; lia |].
      exists res, w', out'. split; [reflexivity |].
      rewrite Hc. apply stream_outcome_shift. by rewrite Hw1 in Hout.
Qed.

(** X18: the example's [stream_with_verification] always returns or
    raises, and what it returns is made of the source's chunks in order.
    Either the whole response was streamed: it returns the concatenation of
    all chunks, has printed each of them and a final newline, and the source
    is exhausted.  Or the check made right after pulling some chunk, on the
    concatenation of all chunks up to and including that one with the
    example's context, returned a verdict with status BLOCKED: it returns
    the concatenation of the chunks before that one followed by the
    truncation notice, has printed only those chunks, has called [on_block]
    with the dictionary of that verdict, and the chunks after the blocked
    one are left in the source; the blocked chunk's own text is neither
    returned nor printed.  Or that check raised: the chunks before the
    failing one have been printed and the exception of [verify] reaches the
    caller. *)
Theorem stream_with_verification_outcome prompt context llm_stream_fn on_block w out :
  exists res w' out',
    stream_with_verification prompt context llm_stream_fn on_block w out
      = Some (res, w', out') /\
    stream_outcome on_block context (llm_stream_fn prompt) [] out res w' out'.
Proof.
  unfold stream_with_verification.
  destruct (stream_consume_outcome on_block context
              (S (length (chunks (with_chunks w (llm_stream_fn prompt)))))
              (verify_stream (CtxList context) 25)
              {| context := context; check_interval := 25;
                 accumulated := ""; token_count := 0 |} []
              (with_chunks w (llm_stream_fn prompt)) out)
    as (res & w' & out' & Hrun & Hout); [done | done | done | lia |].
  by exists res, w', out'.
Qed.

Lemma stream_consume_unverified on_block :
  forall src fuel g l acc w out,
    chunks w = src ->
    resume_locals g = Some l ->
    token_count l + total_tokens src < check_interval l ->
    (length src < fuel)%nat ->
    stream_consume on_block fuel g acc w out
    = Some (inr (joined (acc ++ src)), {| chunks := []; log := log w |},
            out ++ src ++ [newline]).
Proof.
  induction src as [|chunk rest IH]; intros fuel g l acc w out Hc Hl Hlt Hfuel;
    (destruct fuel as [|fuel]; [simpl in Hfuel; lia |]);
    cbn [stream_consume]; unfold next; rewrite Hl.
  - unfold for_loop. rewrite Hc, !app_nil_r. destruct w as [cw lw].
    simpl in Hc. by subst cw.
  - simpl in Hlt. pose proof (total_tokens_nonneg rest). pose proof (token_len_nonneg chunk).
    rewrite (for_loop_pending server self l w chunk rest); [| done | lia].
    change (json_eq_str (unit_status (pending_unit chunk)) "BLOCKED") with false.
    cbn iota. change (text (pending_unit chunk)) with chunk.
    rewrite (IH fuel (AtYieldPending (consume_chunk l chunk)) (consume_chunk l chunk)
               (acc ++ [chunk]) (with_chunks w rest) (out ++ [chunk]));
      try done; [| simpl; lia | simpl in Hfuel; lia].
    simpl. by rewrite <- !app_assoc.
Qed.

(** X19: a response with fewer than 25 tokens is never verified by the
    example: whatever the server would answer, [stream_with_verification]
    returns the whole text, prints every chunk, and sends no request.  The
    mock LLM of the example, whose response has 16 words, is such a
    source. *)
Theorem short_response_is_never_verified prompt context llm_stream_fn on_block w out :
  total_tokens (llm_stream_fn prompt) < 25 ->
  stream_with_verification prompt context llm_stream_fn on_block w out
  = Some (inr (joined (llm_stream_fn prompt)),
          {| chunks := []; log := log w |},
          out ++ llm_stream_fn prompt ++ [newline]).
Proof.
  intros Hshort. unfold stream_with_verification.
  rewrite (stream_consume_unverified on_block (llm_stream_fn prompt) _
             (verify_stream (CtxList context) 25)
             {| context := context; check_interval := 25;
                accumulated := ""; token_count := 0 |} []);
    try done. simpl. lia.
Qed.

End Example.

(** * Instances of the further properties *)

Lemma request_without_budget_witness :
  health always_verified no_retry_client (world0 [])
  = (inl (TensalisError "Request failed after retries"), world0 []).
Proof.
  apply (request_without_budget always_verified no_retry_client "GET" "/health" None
           (world0 [])).
  simpl. lia.
Defined.

Lemma request_first_success_witness :
  health always_verified test_client (world0 [])
  = (inr {["status" := JStr "VERIFIED"]},
     with_log (world0 [])
       (log (world0 []) ++ [EvRequest "GET" (endpoint test_client +:+ "/health") None
                              (timeout test_client)])).
Proof.
  apply (request_first_success always_verified test_client "GET" "/health" None (world0 [])
           (ok_response {["status" := JStr "VERIFIED"]})).
  - simpl. lia.
  - reflexivity.
  - simpl. lia.
  - reflexivity.
Defined.

Lemma request_api_error_not_retried_witness :
  usage always_401 test_client (world0 [])
  = (inl (TensalisAPIError (JStr "Invalid API key") 401 {["error" := JStr "Invalid API key"]}),
     with_log (world0 [])
       (log (world0 []) ++ [EvRequest "GET" (endpoint test_client +:+ "/usage") None
                              (timeout test_client)])).
Proof.
  pose proof (request_api_error_not_retried always_401 test_client "GET" "/usage" None
                (world0 [])
                {| resp_status_code := 401; resp_retry_after := RetryAfterAbsent;
                   resp_content := true;
                   resp_json := inr {["error" := JStr "Invalid API key"]} |}) as H.
  cbv zeta in H. apply H.
  - simpl. lia.
  - reflexivity.
  - simpl. lia.
  - simpl. lia.
  - intros _. by eexists.
Defined.

Lemma request_failures_exhaust_budget_witness :
  let req := EvRequest "POST" "https://api.tensalis.com/v1/verify" None 30 in
  exists e,
    _request always_timeout test_client "POST" "/verify" None (world0 [])
    = (inl e, with_log (world0 []) [req; EvSleep 1; req; EvSleep 2; req]) /\
    e = TensalisTimeoutError "Request timed out after 30s".
Proof.
  intros req.
  destruct (request_failures_exhaust_budget always_timeout test_client "POST" "/verify" None
              (world0 [])) as (e & Hrun & Hlast & _).
  - intros l. discriminate.
  - simpl. lia.
  - exists e. split; [exact Hrun |]. vm_compute in Hlast. by injection Hlast as <-.
Defined.

Lemma request_bad_retry_after_witness :
  exists message,
    _request bad_retry_after test_client "POST" "/verify" None (world0 [])
    = (inl (ValueError message),
       with_log (world0 [])
         (log (world0 []) ++ [EvRequest "POST" (endpoint test_client +:+ "/verify") None
                                (timeout test_client)])).
Proof.
  apply (request_bad_retry_after bad_retry_after test_client "POST" "/verify" None (world0 [])
           {| resp_status_code := 429; resp_retry_after := RetryAfterInvalid "soon";
              resp_content := false; resp_json := inl "Expecting value" |}).
  - simpl. lia.
  - reflexivity.
  - reflexivity.
  - left. by eexists.
Defined.

Lemma rate_limit_keeps_last_error_witness :
  exists w',
    _request timeout_then_429 test_client "POST" "/verify" None (world0 [])
    = (inl (TensalisTimeoutError
              ("Request timed out after " +:+ pretty (timeout test_client) +:+ "s")), w').
Proof.
  apply (rate_limit_keeps_last_error timeout_then_429 test_client "POST" "/verify" None
           (world0 [])).
  - simpl. lia.
  - reflexivity.
  - intros l Hl. unfold timeout_then_429.
    destruct (Nat.leb_spec (length l) 1) as [Hle|_]; [simpl in Hl; lia |].
    eexists. split; [reflexivity |]. split; [reflexivity |].
    right. exists 2. split; [reflexivity | unfold MAX_SLEEP; lia].
Defined.

Lemma rate_limit_waits_then_retries_witness :
  let req := EvRequest "POST" (endpoint test_client +:+ "/verify") None (timeout test_client) in
  _request limited_once test_client "POST" "/verify" None (world0 [])
  = (inr {["status" := JStr "VERIFIED"]},
     with_log (world0 []) (log (world0 []) ++ [req; EvSleep 2; req])).
Proof.
  apply (rate_limit_waits_then_retries limited_once test_client "POST" "/verify" None
           (world0 [])
           {| resp_status_code := 429; resp_retry_after := RetryAfterInt 2;
              resp_content := false; resp_json := inl "Expecting value" |}
           (ok_response {["status" := JStr "VERIFIED"]}) 2 {["status" := JStr "VERIFIED"]}).
  - simpl. lia.
  - unfold MAX_SLEEP. lia.
  - reflexivity.
  - reflexivity.
  - by left.
  - reflexivity.
  - simpl. lia.
  - reflexivity.
Defined.

Lemma verify_batch_wraps_results_witness :
  (verify_batch batch_server test_client [] (world0 [])).1
  = inr (Some ((fun fields => mkVerificationResult (object_dict fields)) <$> batch_objects)).
Proof.
  destruct (verify_batch_wraps_results batch_server test_client [] (world0 [])
              (ok_response {["results" := JList (JObj <$> batch_objects)]})
              {["results" := JList (JObj <$> batch_objects)]}) as (Hrun & _ & Hobjs).
  - simpl. lia.
  - reflexivity.
  - simpl. lia.
  - reflexivity.
  - rewrite Hrun. cbn [fst]. by rewrite (Hobjs batch_objects).
Defined.

Lemma collect_passes_chunks_through_witness :
  chunks (world0 blocked_source) = (text <$> [blocked_unit]) ++ chunks blocked_world.
Proof.
  apply (collect_passes_chunks_through always_blocked test_client 3
           (verify_stream blocked_context 3) (world0 blocked_source)
           [blocked_unit] Exhausted blocked_world).
  vm_compute. reflexivity.
Defined.

Lemma nonpositive_interval_checks_every_chunk_witness :
  exists r,
    {| text := ""; unit_status := JStr "VERIFIED"; result := None |}
    = checked_unit (text {| text := ""; unit_status := JStr "VERIFIED"; result := None |}) r.
Proof.
  apply (nonpositive_interval_checks_every_chunk always_verified test_client 1
           (CtxStr "facts") 0 (world0 [""; "a "])
           [Yield {| text := ""; unit_status := JStr "VERIFIED"; result := None |}]
           (AtYieldChecked {| context := ["facts"]; check_interval := 0;
                              accumulated := ""; token_count := 0 |}
              (mkVerificationResult {["status" := JStr "VERIFIED"]}))
           {| chunks := ["a "];
              log := [EvRequest "POST" "https://api.tensalis.com/v1/verify"
                        (Some (verify_payload "" ["facts"])) 30] |}).
  - lia.
  - vm_compute. reflexivity.
  - left. reflexivity.
Defined.

Lemma stream_with_verification_outcome_witness :
  stream_outcome always_blocked test_client (Some print_reason) ["facts"] long_source [] []
    (inr (joined (repeat "tok " 24) +:+ truncation_notice))
    {| chunks := ["late "];
       log := [EvRequest "POST" "https://api.tensalis.com/v1/verify"
                 (Some (<["reference_facts" := JList [JStr "facts"]]>
                          (<["response" := JStr (joined (repeat "tok " 25))]> ∅))) 30] |}
    (repeat "tok " 24 ++ ["Contradiction detected"]).
Proof.
  destruct (stream_with_verification_outcome always_blocked test_client "prompt" ["facts"]
              (fun _ => long_source) (Some print_reason) (world0 []) [])
    as (res & w' & out' & Hrun & Hout).
  vm_compute in Hrun. injection Hrun as <- <- <-. exact Hout.
Defined.

Lemma short_response_is_never_verified_witness :
  stream_with_verification always_blocked test_client "What is the refund policy?"
    ["Returns are accepted within 30 days of purchase."] mock_streaming_llm None
    (world0 []) []
  = Some (inr (joined (mock_streaming_llm "What is the refund policy?")),
          {| chunks := []; log := [] |},
          [] ++ mock_streaming_llm "What is the refund policy?" ++ [newline]).
Proof.
  apply (short_response_is_never_verified always_blocked test_client
           "What is the refund policy?"
           ["Returns are accepted within 30 days of purchase."] mock_streaming_llm None
           (world0 []) []).
  vm_compute. reflexivity.
Defined.

Lemma stream_request_cost_witness :
  exists more,
    log cadence_world = log (world0 cadence_source) ++ more /\
    Z.of_nat (length (requests_of more)) * 2
    <= Z.of_nat (Z.to_nat (retries test_client)) * total_tokens (chunks (world0 cadence_source)).
Proof.
  apply (stream_request_cost always_verified test_client 4 (CtxStr "facts") 2
           (world0 cadence_source) cadence_units Exhausted cadence_world).
  - lia.
  - vm_compute. reflexivity.
Defined.

Lemma collect_ends_within_source_witness :
  exists us e w',
    collect always_verified test_client 4 (verify_stream (CtxStr "facts") 2)
      (world0 cadence_source) = Some (us, e, w') /\
    (length us <= length (chunks (world0 cadence_source)))%nat /\
    forall extra,
      collect always_verified test_client (4 + extra) (verify_stream (CtxStr "facts") 2)
        (world0 cadence_source) = Some (us, e, w').
Proof.
  apply (collect_ends_within_source always_verified test_client 4
           (verify_stream (CtxStr "facts") 2) (world0 cadence_source)).
  simpl. lia.
Defined.

Lemma stream_error_is_final_witness :
  (exists l chunk,
     resume_locals (verify_stream (CtxStr "facts") 1) = Some l /\
     chunks (world0 ["a "]) = chunk :: chunks refused_world /\
     (verify always_401 test_client (accumulated l +:+ chunk) (CtxList (context l)) None
        (with_chunks (world0 ["a "]) (chunks refused_world))).1 = inl refused_error) /\
  (forall m,
     advance always_401 test_client m Finished refused_world
     = (repeat StopIteration m, Finished, refused_world)).
Proof.
  destruct (stream_error_is_final always_401 test_client (verify_stream (CtxStr "facts") 1)
              (world0 ["a "]) refused_error Finished refused_world)
    as (_ & Hraised & Hlater).
  - vm_compute. reflexivity.
  - split; [exact Hraised | exact Hlater].
Defined.
